(** * Parallel composition, fan-in merge and branch paths of the agent runtime

    A shallow embedding of [google/adk/agents/parallel_agent.py],
    [google/adk/flows/llm_flows/single_flow.py] and
    [google/adk/cli/utils/evals.py], with the properties the specification
    states about them and further properties of the code. *)

From stdpp Require Import base option list gmap strings.
From Stdlib Require Import Ascii Lia.

Open Scope string_scope.
Open Scope list_scope.

(** ** Invocation context and branch paths *)

Module Branch.

(** The part of [InvocationContext] the agents of [parallel_agent.py] read
    and write.  [branch] is an optional string ([None] when unset). *)
Record InvocationContext := mkInvocationContext {
  invocation_id : string;
  branch : option string;
}.

(** Python truthiness of [invocation_context.branch]: [None] and the empty
    string are false, every other string is true. *)
Definition truthy (b : option string) : bool :=
  match b with
  | None => false
  | Some EmptyString => false
  | Some (String _ _) => true
  end.

(** The value assigned to [invocation_context.branch]:
    [f"{branch}.{name}" if branch else name]. *)
Definition extended_branch (b : option string) (agent_name : string) : string :=
  match b with
  | Some (String c s) => String c s +:+ "." +:+ agent_name
  | _ => agent_name
  end.

(** [_set_branch_for_current_agent(current_agent, invocation_context)];
    of the agent only its name is read. *)
Definition _set_branch_for_current_agent
    (current_agent_name : string) (invocation_context : InvocationContext)
    : InvocationContext :=
  {| invocation_id := invocation_id invocation_context;
     branch := Some (extended_branch (branch invocation_context)
                       current_agent_name) |}.

(** Whether a branch string begins with the separator. *)
Definition starts_with_sep (s : string) : bool :=
  match s with
  | String c _ => bool_decide (c = "."%char)
  | EmptyString => false
  end.

Definition is_empty (s : string) : bool :=
  match s with EmptyString => true | _ => false end.

(** [_set_branch_for_current_agent] called on the same context by one agent
    after the other, as when agents are nested. *)
Definition set_branch_along (agent_names : list string)
    (invocation_context : InvocationContext) : InvocationContext :=
  foldl (fun ctx n => _set_branch_for_current_agent n ctx)
        invocation_context agent_names.

(** The parts of a branch: none when it is unset or empty. *)
Definition branch_parts (b : option string) : list string :=
  match b with
  | Some (String c s) => [String c s]
  | _ => []
  end.

End Branch.

(** ** The fan-in merger *)

Module Merge.

(** What awaiting one [__anext__()] call gives: an Event, the end of the
    generator ([StopAsyncIteration]), or any other exception. *)
Inductive Fetched (E X : Type) : Type :=
  | Produced (e : E)
  | Exhausted
  | Failed (x : X).
Arguments Produced {E X} e.
Arguments Exhausted {E X}.
Arguments Failed {E X} x.

(** The interface the merger uses of an [AsyncGenerator[Event, None]]:
    [__anext__] advances the generator, possibly acting on state [W] it shares
    with the other generators. *)
Class AsyncGenerator (G W E X : Type) := anext : G -> W -> Fetched E X * G * W.

(** A task made by [asyncio.create_task(agent_runs[i].__anext__())]: its
    identity (tasks are compared by identity) and the index [i] of the
    generator its coroutine advances. *)
Abbreviation Task := (nat * nat)%type.
Definition task_id (t : Task) : nat := t.1.
Definition task_gen (t : Task) : nat := t.2.

(** What the merger does that the outside sees: it creates a task that
    fetches from source [i], it yields an Event (fetched from source [i]) to
    its consumer, it lets an exception escape, it cancels a task. *)
Inductive Action (E X : Type) : Type :=
  | Fetch (i : nat)
  | Yield (i : nat) (e : E)
  | Raise (x : X)
  | Cancel (t : Task).
Arguments Fetch {E X} i.
Arguments Yield {E X} i e.
Arguments Raise {E X} x.
Arguments Cancel {E X} t.

(** How a run of the merger ends: its loop ends ([pending_tasks] is empty),
    an exception escapes, or the schedule given to the model is used up while
    fetches are still pending. *)
Inductive Outcome (X : Type) : Type :=
  | Completed
  | Raised (x : X)
  | Suspended.
Arguments Completed {X}.
Arguments Raised {X} x.
Arguments Suspended {X}.

Section merger.
Context {G W E X : Type} `{!AsyncGenerator G W E X}.

(** The local variables of [_merge_agent_run], the state [world] shared by
    the generators, the number of tasks created so far and the actions so
    far. *)
Record State := mkState {
  agent_runs : list G;
  world : W;
  tasks : list Task;
  pending_tasks : gset Task;
  created : nat;
  trace : list (Action E X);
}.

Definition emit (a : Action E X) (st : State) : State :=
  mkState (agent_runs st) (world st) (tasks st) (pending_tasks st)
          (created st) (trace st ++ [a]).

Definition with_pending (p : gset Task) (st : State) : State :=
  mkState (agent_runs st) (world st) (tasks st) p (created st) (trace st).

(** [tasks = [create_task(g.__anext__()) for g in agent_runs]] and
    [pending_tasks = set(tasks)].  Creating a task runs nothing yet. *)
Definition init (runs : list G) (w : W) : State :=
  let tasks0 := (fun i => (i, i)) <$> seq 0 (length runs) in
  mkState runs w tasks0 (list_to_set tasks0) (length runs)
          (Fetch <$> seq 0 (length runs)).

(** [task.result()]: the outcome of the fetch the task runs.  A fetch acts
    on the generator of its task, on which no other fetch is outstanding;
    when it runs, between the creation of the task and the reading of its
    result, is not visible to the merger, and the model runs it when its
    result is read.  In the program a fetch that has completed has advanced
    its generator even when its result is never read (the run stops first):
    [agent_runs] and [world] are those of the program where every completed
    fetch has been read, and the properties of runs are stated on the trace
    and on [tasks] and [pending_tasks], which do not depend on it.  A task
    always holds the coroutine of a generator of [agent_runs]; for an index
    outside the list, which [wf] excludes, the model reports exhaustion. *)
Definition result (task : Task) (st : State) : Fetched E X * State :=
  match agent_runs st !! task_gen task with
  | Some g =>
      let '(r, g', w') := anext g (world st) in
      (r, mkState (<[task_gen task := g']> (agent_runs st)) w' (tasks st)
                  (pending_tasks st) (created st) (trace st))
  | None => (Exhausted, st)
  end.

(** [new_task = create_task(agent_runs[i].__anext__()); tasks[i] = new_task;
    pending_tasks.add(new_task)]. *)
Definition move_on (i : nat) (st : State) : State :=
  let new_task : Task := (created st, i) in
  mkState (agent_runs st) (world st) (<[i := new_task]> (tasks st))
          ({[new_task]} ∪ pending_tasks st) (S (created st))
          (trace st ++ [Fetch i]).

(** The search [for i, original_task in enumerate(tasks): if task ==
    original_task: ...; break]. *)
Definition find_and_move_on (task : Task) (st : State) : State :=
  match list_find (fun original_task => task = original_task) (tasks st) with
  | Some (i, _) => move_on i st
  | None => st
  end.

(** [for task in done: try: yield task.result() ... except
    StopAsyncIteration: continue].  Returns the exception that escapes, if
    one does. *)
Fixpoint for_done (done : list Task) (st : State) : State * option X :=
  match done with
  | [] => (st, None)
  | task :: rest =>
      match result task st with
      | (Produced e, st1) =>
          for_done rest (find_and_move_on task (emit (Yield (task_gen task) e) st1))
      | (Exhausted, st1) => for_done rest st1
      | (Failed x, st1) => (emit (Raise x) st1, Some x)
      end
  end.

(** [done, pending_tasks = await asyncio.wait(pending_tasks,
    return_when=FIRST_COMPLETED)].  Which fetches have completed, and in
    which order the set [done] is iterated, is the scheduler's choice: the
    list [choice] names sources, and [done] holds their pending tasks in that
    order.  [wait] returns at least one task: when [choice] names no source
    with a pending task, one pending task completes. *)
Definition named (choice : list nat) (st : State) : list Task :=
  remove_dups
    (filter (fun t => t ∈ pending_tasks st)
            (omap (fun i => tasks st !! i) choice)).

Definition wait (choice : list nat) (st : State) : list Task :=
  match named choice st with
  | [] => take 1 (elements (pending_tasks st))
  | done => done
  end.

(** [while pending_tasks: ...], one element of the schedule for each call
    of [asyncio.wait]. *)
Fixpoint while_pending (sched : list (list nat)) (st : State)
    : State * Outcome X :=
  if decide (pending_tasks st = ∅) then (st, Completed)
  else
    match sched with
    | [] => (st, Suspended)
    | choice :: sched' =>
        let done := wait choice st in
        match for_done done
                (with_pending (pending_tasks st ∖ list_to_set done) st) with
        | (st', Some x) => (st', Raised x)
        | (st', None) => while_pending sched' st'
        end
    end.

Definition _merge_agent_run (runs : list G) (w : W) (sched : list (list nat))
    : State * Outcome X :=
  while_pending sched (init runs w).

(** The Events a trace yields, each with the index of its source. *)
Definition yielded (tr : list (Action E X)) : list (nat * E) :=
  omap (fun a => match a with Yield i e => Some (i, e) | _ => None end) tr.

(** The Events source [i] contributed, in the order they were yielded. *)
Definition yielded_from (i : nat) (tr : list (Action E X)) : list E :=
  omap (fun a => match a with
                 | Yield j e => if decide (j = i) then Some e else None
                 | _ => None
                 end) tr.

(** Numbers of fetches issued to source [i] and of Events of source [i]
    yielded. *)
Definition fetched_from (i : nat) (tr : list (Action E X)) : list unit :=
  omap (fun a => match a with
                 | Fetch j => if decide (j = i) then Some () else None
                 | _ => None
                 end) tr.

Definition fetches (i : nat) (tr : list (Action E X)) : nat :=
  length (fetched_from i tr).

Definition yields (i : nat) (tr : list (Action E X)) : nat :=
  length (yielded_from i tr).

Definition cancels (tr : list (Action E X)) : list Task :=
  omap (fun a => match a with Cancel t => Some t | _ => None end) tr.

(** *** The merger seen as a machine over the set of active sources

    The bookkeeping of tasks is forgotten: a source is active while a fetch
    on it is outstanding.  One step reads the result of the outstanding fetch
    of an active source.  The runs of [_merge_agent_run] are paths of this
    machine ([MergeFacts.run_refines]). *)
Record Active := mkActive {
  a_runs : list G;
  a_world : W;
  a_active : gset nat;
  a_trace : list (Action E X);
}.

Inductive astep : Active -> Active -> Prop :=
  | astep_yield gs w act tr i g e g' w' :
      i ∈ act -> gs !! i = Some g -> anext g w = (Produced e, g', w') ->
      astep (mkActive gs w act tr)
            (mkActive (<[i := g']> gs) w' act (tr ++ [Yield i e; Fetch i]))
  | astep_stop gs w act tr i g g' w' :
      i ∈ act -> gs !! i = Some g -> anext g w = (Exhausted, g', w') ->
      astep (mkActive gs w act tr)
            (mkActive (<[i := g']> gs) w' (act ∖ {[i]}) tr).

Inductive afail : Active -> X -> Active -> Prop :=
  | afail_raise gs w act tr i g x g' w' :
      i ∈ act -> gs !! i = Some g -> anext g w = (Failed x, g', w') ->
      afail (mkActive gs w act tr) x
            (mkActive (<[i := g']> gs) w' (act ∖ {[i]}) (tr ++ [Raise x])).

(** The active sources of a state: those with a task in [pending_tasks], and
    during the [for] loop those with a task still to be read in [done]. *)
Definition active_of (done : list Task) (st : State) : gset nat :=
  set_map task_gen (pending_tasks st) ∪ list_to_set (task_gen <$> done).

Definition abs (done : list Task) (st : State) : Active :=
  mkActive (agent_runs st) (world st) (active_of done st) (trace st).

Definition abs_init (runs : list G) (w : W) : Active :=
  mkActive runs w (list_to_set (seq 0 (length runs)))
           (Fetch <$> seq 0 (length runs)).

(** *** Invariants of the merger *)

(** The tasks in [tasks] are the latest of their source, and a pending task
    is the latest of its source. *)
Record wf (st : State) : Prop := mkWf {
  wf_len : length (tasks st) = length (agent_runs st);
  wf_tasks : forall i t, tasks st !! i = Some t ->
               task_gen t = i /\ task_id t < created st;
  wf_pending : forall t, t ∈ pending_tasks st -> tasks st !! task_gen t = Some t;
}.

(** The tasks of [done] still to be read: each the latest of its source, none
    pending, none twice. *)
Record batch_ok (done : list Task) (st : State) : Prop := mkBatch {
  batch_nodup : NoDup done;
  batch_tasks : forall t, t ∈ done -> tasks st !! task_gen t = Some t;
  batch_apart : forall t, t ∈ done -> t ∉ pending_tasks st;
}.

(** Of every source, each Event yielded was fetched before, and at most one
    fetch has not been yielded yet. *)
Definition one_in_flight (tr : list (Action E X)) : Prop :=
  forall i, yields i tr <= fetches i tr <= S (yields i tr).

(** [P] holds at every point of the run that left the trace [tr]. *)
Definition always (P : list (Action E X) -> Prop) (tr : list (Action E X)) : Prop :=
  forall p, p `prefix_of` tr -> P p.

(** Between two steps of the merger each of the [n] sources has been
    fetched once more than it has been yielded. *)
Definition balanced (n : nat) (tr : list (Action E X)) : Prop :=
  forall i, fetches i tr = yields i tr + (if decide (i < n) then 1 else 0).

Definition count_fetch (i : nat) (x : Action E X) : nat :=
  match x with Fetch j => if decide (j = i) then 1 else 0 | _ => 0 end.

Definition count_yield (i : nat) (x : Action E X) : nat :=
  match x with Yield j _ => if decide (j = i) then 1 else 0 | _ => 0 end.

(** Actions of a run that goes on: fetches and yields. *)
Definition going_on (x : Action E X) : Prop :=
  match x with Fetch _ | Yield _ _ => True | _ => False end.

(** The merged sequence: the Events yielded, in order. *)
Definition events (tr : list (Action E X)) : list E := (yielded tr).*2.

End merger.

(** *** Sources that are plain sequences *)

(** How a source ends: by exhaustion or by an exception. *)
Inductive End (X : Type) : Type :=
  | Stop
  | Error (x : X).
Arguments Stop {X}.
Arguments Error {X} x.

(** A source that produces the Events of a list and then ends.  A generator
    that has raised is finished: a later fetch reports exhaustion. *)
Abbreviation ListGen E X := (list E * End X)%type.

#[export] Instance list_anext {E X : Type} : AsyncGenerator (ListGen E X) unit E X :=
  fun g w =>
    match g with
    | (e :: es, t) => (Produced e, (es, t), w)
    | ([], Stop) => (Exhausted, ([], Stop), w)
    | ([], Error x) => (Failed x, ([], Stop), w)
    end.

(** The fetches a run needs at most: one for each Event and one for the end
    of each source. *)
Definition fetch_bound {E X : Type} (srcs : list (ListGen E X)) : nat :=
  sum_list ((fun g => S (length g.1)) <$> srcs).

Section sequences.
Context {E X : Type}.

(** What is left of each source is what has not been yielded of it; an
    inactive source has been read to its end, which was not an error. *)
Definition tracks (srcs : list (ListGen E X))
    (a : Active (G:=ListGen E X) (W:=unit) (E:=E) (X:=X)) : Prop :=
  length (a_runs a) = length srcs /\
  forall i src, srcs !! i = Some src ->
    exists g, a_runs a !! i = Some g /\
      yielded_from i (a_trace a) ++ g.1 = src.1 /\
      (i ∈ a_active a -> g.2 = src.2) /\
      (i ∉ a_active a -> g = ([], Stop) /\ src.2 = Stop).

(** The fetches still to be read: one for each Event left and one for each
    active source. *)
Definition remaining (a : Active (G:=ListGen E X) (W:=unit) (E:=E) (X:=X)) : nat :=
  sum_list ((fun g : ListGen E X => length g.1) <$> a_runs a) + size (a_active a).

(** Nothing is lost and nothing is made up: what has been yielded together
    with what the sources still hold is what the sources held. *)
Definition conserves (srcs : list (ListGen E X))
    (a : Active (G:=ListGen E X) (W:=unit) (E:=E) (X:=X)) : Prop :=
  events (a_trace a) ++ concat (fst <$> a_runs a) ≡ₚ concat (fst <$> srcs).

End sequences.

End Merge.

(** ** Parallel composition *)

Module Parallel.
Import Branch Merge.

(** Of an Event, what parallel composition determines: who produced it and
    under which branch; [text] stands for its content. *)
Record Event := mkEvent {
  author : string;
  event_branch : option string;
  text : string;
}.

(** The invocation contexts are objects passed by reference: the store
    holds them, and a reference is a position in it. *)
Abbreviation Store := (list InvocationContext).

(** Modelled from the spec: the agents' [run_async] is in [base_agent.py],
    which is not among the sources.  What a child agent does once it runs is
    a sequence of steps on the context it runs against: it produces an Event
    stamped with that context's branch, or it enters a nested agent, which
    appends the nested agent's name to that context's branch the way
    [_set_branch_for_current_agent] does. *)
Inductive Op : Type :=
  | Say (t : string)
  | Enter (nested_agent_name : string).

Record BaseAgent := mkBaseAgent {
  name : string;
  body : list Op;
}.

Record ParallelAgent := mkParallelAgent {
  self_name : string;
  sub_agents : list BaseAgent;
}.

(** The generator object [agent.run_async(ctx)]: the agent, the context it
    was given, the context it runs against once it has started, and what it
    still has to do. *)
Record Run := mkRun {
  run_agent : BaseAgent;
  parent_ctx : nat;
  own_ctx : option nat;
  todo : list Op;
}.

(** Modelled from the spec: an independent context clone whose branch is
    the branch of the parent plus the name of the child; the branch is
    dot-separated as in [_set_branch_for_current_agent]. *)
Definition clone_for (child_name : string) (parent : InvocationContext)
    : InvocationContext :=
  {| invocation_id := invocation_id parent;
     branch := Some (extended_branch (branch parent) child_name) |}.

(** Runs the steps of a child up to its next Event. *)
Fixpoint advance (who : string) (ctx : nat) (ops : list Op) (store : Store)
    : Fetched Event string * list Op * Store :=
  match ops with
  | [] => (Exhausted, [], store)
  | Enter n :: rest =>
      advance who ctx rest (alter (_set_branch_for_current_agent n) ctx store)
  | Say t :: rest =>
      match store !! ctx with
      | Some c => (Produced (mkEvent who (branch c) t), rest, store)
      | None => (Failed "no context", [], store)
      end
  end.

(** Modelled from the spec: a generator runs nothing until its first
    fetch; the first fetch makes the clone, in a new place of the store. *)
#[export] Instance run_anext : AsyncGenerator Run Store Event string :=
  fun r store =>
    match own_ctx r with
    | Some own =>
        let '(res, ops, store') :=
          advance (name (run_agent r)) own (todo r) store in
        (res, mkRun (run_agent r) (parent_ctx r) (Some own) ops, store')
    | None =>
        match store !! parent_ctx r with
        | Some parent =>
            let own := length store in
            let '(res, ops, store') :=
              advance (name (run_agent r)) own (todo r)
                      (store ++ [clone_for (name (run_agent r)) parent]) in
            (res, mkRun (run_agent r) (parent_ctx r) (Some own) ops, store')
        | None => (Failed "no context", r, store)
        end
    end.

Definition run_async (agent : BaseAgent) (ctx : nat) : Run :=
  mkRun agent ctx None (body agent).

(** [ParallelAgent._run_async_impl(self, ctx)]: every Event of the merged
    run is passed on. *)
Definition _run_async_impl (self : ParallelAgent) (ctx : nat) (store : Store)
    (sched : list (list nat)) : State * Outcome string :=
  let store1 := alter (_set_branch_for_current_agent (self_name self)) ctx store in
  let agent_runs := (fun agent => run_async agent ctx) <$> sub_agents self in
  _merge_agent_run agent_runs store1 sched.

(** The Events a child produces when nothing else touches its context,
    which starts with branch [b]. *)
Fixpoint says (who : string) (b : option string) (ops : list Op) : list Event :=
  match ops with
  | [] => []
  | Enter n :: rest => says who (Some (extended_branch b n)) rest
  | Say t :: rest => mkEvent who b t :: says who b rest
  end.

Definition alone (parent_branch : option string) (child : BaseAgent) : list Event :=
  says (name child) (Some (extended_branch parent_branch (name child)))
       (body child).

(** *** Invariants of parallel composition *)

Section isolation.
Variables (subs : list BaseAgent) (ctx : nat) (c1 : InvocationContext).

(** The context the Parallel agent was given stays as the agent left it;
    a child that has started runs against a context of its own, and what it
    has yielded and will yield is what it yields alone. *)
Definition child_ok (a : Active (G:=Run) (W:=Store) (E:=Event) (X:=string))
    (i : nat) (child : BaseAgent) (r : Run) : Prop :=
  run_agent r = child /\ parent_ctx r = ctx /\
  match own_ctx r with
  | None => todo r = body child /\ yielded_from i (a_trace a) = []
  | Some own =>
      own <> ctx /\
      exists co, a_world a !! own = Some co /\
        yielded_from i (a_trace a) ++ says (name child) (branch co) (todo r)
        = alone (branch c1) child
  end.

Record isolated (a : Active (G:=Run) (W:=Store) (E:=Event) (X:=string)) : Prop :=
  mkIsolated {
  iso_parent : a_world a !! ctx = Some c1;
  iso_length : length (a_runs a) = length subs;
  iso_outside : forall i, length subs <= i -> yielded_from i (a_trace a) = [];
  iso_child : forall i child, subs !! i = Some child ->
                exists r, a_runs a !! i = Some r /\ child_ok a i child r;
  iso_apart : forall i j ri rj own, i <> j ->
                a_runs a !! i = Some ri -> a_runs a !! j = Some rj ->
                own_ctx ri = Some own -> own_ctx rj <> Some own;
}.

End isolation.

(** *** What a run of the children needs and leaves *)

(** The Events a child has still to produce. *)
Fixpoint count_says (ops : list Op) : nat :=
  match ops with
  | [] => 0
  | Say _ :: rest => S (count_says rest)
  | Enter _ :: rest => count_says rest
  end.

(** The fetches a run of the children needs at most: one for each Event of
    a child and one for its end. *)
Definition fetches_needed (subs : list BaseAgent) : nat :=
  sum_list ((fun child => S (count_says (body child))) <$> subs).

(** The fetches still to be read: one for each Event left and one for each
    active child. *)
Definition still_to_read
    (a : Active (G:=Run) (W:=Store) (E:=Event) (X:=string)) : nat :=
  sum_list ((fun r => count_says (todo r)) <$> a_runs a) + size (a_active a).

(** Whether a child has its clone. *)
Definition started (r : Run) : nat :=
  match own_ctx r with Some _ => 1 | None => 0 end.

Section clones.
Variables (store1 : Store) (c1 : InvocationContext).

(** The store the children were started with stays as it is, and the
    contexts the children run against come after it: one clone for each
    child that has started, each with the invocation of the context the
    Parallel agent was given.  A child that is no longer active has started
    and has nothing left to do. *)
Record cloned (a : Active (G:=Run) (W:=Store) (E:=Event) (X:=string)) : Prop :=
  mkCloned {
  cl_prefix : store1 `prefix_of` a_world a;
  cl_own : forall i r own, a_runs a !! i = Some r -> own_ctx r = Some own ->
             length store1 <= own < length (a_world a);
  cl_count : length (a_world a)
             = length store1 + sum_list (started <$> a_runs a);
  cl_ids : Forall (fun id => id = invocation_id c1)
             (drop (length store1) (invocation_id <$> a_world a));
  cl_done : forall i r, a_runs a !! i = Some r -> i ∉ a_active a ->
              todo r = [] /\ started r = 1;
}.

End clones.

(** What the merger adds to the trace when it reads [res] of source [i]. *)
Definition reported (i : nat) (res : Fetched Event string)
    : list (Action Event string) :=
  match res with Produced e => [Yield i e; Fetch i] | _ => [] end.

End Parallel.

(** ** The processor pipeline of [SingleFlow] *)

Module Flow.

(** The modules whose [request_processor] and [response_processor]
    [single_flow.py] lists. *)
Inductive Processor : Type :=
  | basic
  | auth_preprocessor
  | instructions
  | identity
  | contents
  | _nl_planning
  | _code_execution.

(** The two lists a flow holds. *)
Record LlmFlow := mkLlmFlow {
  request_processors : list Processor;
  response_processors : list Processor;
}.

(** [SingleFlow.__init__]: [base] is the flow [super().__init__()] leaves
    ([BaseLlmFlow] is not among the sources); both lists are extended with
    [+=]. *)
Definition SingleFlow_init (base : LlmFlow) : LlmFlow :=
  {| request_processors :=
       request_processors base ++
       [basic; auth_preprocessor; instructions; identity; contents;
        _nl_planning; _code_execution];
     response_processors :=
       response_processors base ++ [_nl_planning; _code_execution] |}.

Section pipeline.
Context {C X : Type}.

(** Modelled from the spec: the loop that runs the processors is in
    [base_llm_flow.py], which is not among the sources.  Composition is a
    strict left-to-right fold over the shared mutable request/response
    context, and a processor failure aborts the pipeline for that turn:
    [process p c] is the context as processor [p] leaves it and the failure
    of [p], if it fails. *)
Fixpoint run_processors (process : Processor -> C -> C * option X)
    (ps : list Processor) (c : C) : C * option X :=
  match ps with
  | [] => (c, None)
  | p :: rest =>
      match process p c with
      | (c', None) => run_processors process rest c'
      | (c', Some x) => (c', Some x)
      end
  end.

(** Modelled from the spec: no partial request is sent; the request goes
    out when the request processors have run without failure. *)
Definition request_sent (process : Processor -> C -> C * option X)
    (ps : list Processor) (c : C) : option C :=
  match run_processors process ps c with
  | (c', None) => Some c'
  | (_, Some _) => None
  end.

(** A processor that also notes, in the context, that it ran. *)
Definition noting (process : Processor -> C -> C * option X)
    (p : Processor) (c : list Processor * C)
    : (list Processor * C) * option X :=
  ((c.1 ++ [p], (process p c.2).1), (process p c.2).2).

End pipeline.

(** [x] comes before [y] in [l]. *)
Definition before (x y : Processor) (l : list Processor) : Prop :=
  exists l1 l2 l3, l = l1 ++ x :: l2 ++ y :: l3.

End Flow.

(** ** The response assembler *)

Module Assembler.

(** Modelled from the spec: the assembler is in [models/lite_llm.py], which
    is not among the sources (its tests are).  The data model follows
    sections 3, 4.4 and 6 of the specification; [Args] is the structured
    data of tool-call arguments and [parse] the parser of their JSON text. *)
Section assembler.
Context {Args : Type} (parse : string -> option Args).

Inductive Part : Type :=
  | Text (s : string)
  | FunctionCall (id name : string) (args : Args)
  | FunctionResponse (id name : string) (result : Args).

Record Event := mkEvent {
  role : string;
  parts : list Part;
  partial : bool;
}.

Inductive Chunk : Type :=
  | TextDelta (s : string)
  | ToolCallDelta (index : nat) (id name : option string) (args_fragment : string)
  | Finish (reason : string).

Record ToolCall := mkToolCall {
  call_id : string;
  call_name : string;
  args_buffer : string;
}.

Record Accumulator := mkAccumulator {
  text_buffer : string;
  tool_calls : list (nat * ToolCall);
  finish_reason : option string;
}.

(** What the assembler gives out: an Event, or the report that the
    arguments of one tool call did not parse. *)
Inductive Emitted : Type :=
  | Emit (e : Event)
  | ToolArgumentParseError (index : nat) (id name : string).

(** Modelled from the spec: the role of the Events the assembler makes
    (the tests under [src/] find the role model on every assembled
    response). *)
Definition model_role : string := "model".

Definition empty_accumulator : Accumulator := mkAccumulator EmptyString [] None.

(** Modelled from the spec: the first fragment for an index carries id and
    name; every fragment, including the first, carries a string fragment of
    the JSON-encoded arguments, which the assembler concatenates into the
    args_buffer of that index.  The mapping is kept in index order. *)
Fixpoint add_fragment (index : nat) (id name : option string) (fragment : string)
    (calls : list (nat * ToolCall)) : list (nat * ToolCall) :=
  match calls with
  | [] => [(index, mkToolCall (default EmptyString id) (default EmptyString name) fragment)]
  | (j, c) :: rest =>
      if decide (index < j) then
        (index, mkToolCall (default EmptyString id) (default EmptyString name) fragment) :: calls
      else if decide (index = j) then
        (j, mkToolCall (call_id c) (call_name c) (args_buffer c +:+ fragment))
          :: rest
      else (j, c) :: add_fragment index id name fragment rest
  end.

(** Modelled from the spec: on a finish marker, for every accumulated
    tool-call index, parse args_buffer; on success emit one FunctionCall
    Event per index, preserving the index order; a parse failure is reported
    on that call. *)
Definition finish_call (entry : nat * ToolCall) : Emitted :=
  match parse (args_buffer entry.2) with
  | Some args =>
      Emit (mkEvent model_role
              [FunctionCall (call_id entry.2) (call_name entry.2) args] false)
  | None => ToolArgumentParseError entry.1 (call_id entry.2) (call_name entry.2)
  end.

(** Modelled from the spec: one chunk; a text fragment is appended to
    [text_buffer] and given out at once as a partial Text Event; after a
    finish marker the accumulator is discarded. *)
Definition step (acc : Accumulator) (chunk : Chunk) : Accumulator * list Emitted :=
  match chunk with
  | TextDelta s =>
      (mkAccumulator (text_buffer acc +:+ s) (tool_calls acc) (finish_reason acc),
       [Emit (mkEvent model_role [Text s] true)])
  | ToolCallDelta index id name fragment =>
      (mkAccumulator (text_buffer acc)
                     (add_fragment index id name fragment (tool_calls acc))
                     (finish_reason acc),
       [])
  | Finish reason =>
      (empty_accumulator, finish_call <$> tool_calls acc)
  end.

Fixpoint assemble_from (acc : Accumulator) (chunks : list Chunk) : list Emitted :=
  match chunks with
  | [] => []
  | chunk :: rest =>
      let '(acc', out) := step acc chunk in out ++ assemble_from acc' rest
  end.

Definition assemble_stream (chunks : list Chunk) : list Emitted :=
  assemble_from empty_accumulator chunks.

(** Modelled from the spec: the non-streaming response and its assembly:
    exactly one Event containing, in order, a Text part (if present)
    followed by one FunctionCall part per tool call, ids preserved. *)
Record CompleteToolCall := mkCompleteToolCall {
  tool_id : string;
  tool_name : string;
  tool_args : Args;
}.

Record Response := mkResponse {
  response_role : option string;
  response_text : option string;
  response_tool_calls : list CompleteToolCall;
}.

Definition call_part (c : CompleteToolCall) : Part :=
  FunctionCall (tool_id c) (tool_name c) (tool_args c).

(** Modelled from the spec: role normalization; an incoming role of model
    or assistant both map to the canonical output role model, a
    missing/absent role maps to user.  Of other incoming roles the
    specification says nothing: they are given the canonical output role
    (the tests under [src/] find the role model on the response assembled
    from a message of role tool). *)
Definition normalize_role (incoming : option string) : string :=
  match incoming with
  | Some r =>
      if bool_decide (r = "model" \/ r = "assistant") then "model"
      else model_role
  | None => "user"
  end.

Definition assemble_response (r : Response) : list Event :=
  [mkEvent (normalize_role (response_role r))
     (match response_text r with Some t => [Text t] | None => [] end
      ++ (call_part <$> response_tool_calls r))
     false].

End assembler.

(** *** A parser for the examples: JSON objects of strings

    Objects whose keys and values are strings without escapes, which is
    what the tool-call arguments of the tests are. *)
Definition quote_char : ascii := ascii_of_nat 34.
Definition backslash_char : ascii := ascii_of_nat 92.

(** Writes a JSON text with apostrophes where the text has double quotes. *)
Fixpoint json (s : string) : string :=
  match s with
  | String c rest =>
      String (if bool_decide (c = "'"%char) then quote_char else c) (json rest)
  | EmptyString => EmptyString
  end.

Fixpoint skip_spaces (s : string) : string :=
  match s with
  | String c rest => if bool_decide (c = " "%char) then skip_spaces rest else s
  | EmptyString => s
  end.

Fixpoint read_until_quote (s : string) : option (string * string) :=
  match s with
  | EmptyString => None
  | String c rest =>
      if bool_decide (c = quote_char) then Some (EmptyString, rest)
      else if bool_decide (c = backslash_char) then None
      else match read_until_quote rest with
           | Some (v, rest') => Some (String c v, rest')
           | None => None
           end
  end.

Definition read_char (c : ascii) (s : string) : option string :=
  match skip_spaces s with
  | String d rest => if bool_decide (d = c) then Some rest else None
  | EmptyString => None
  end.

Definition read_string (s : string) : option (string * string) :=
  match read_char quote_char s with
  | Some rest => read_until_quote rest
  | None => None
  end.

Definition read_pair (s : string) : option ((string * string) * string) :=
  match read_string s with
  | Some (k, s1) =>
      match read_char ":" s1 with
      | Some s2 =>
          match read_string s2 with
          | Some (v, s3) => Some ((k, v), s3)
          | None => None
          end
      | None => None
      end
  | None => None
  end.

Fixpoint read_pairs (fuel : nat) (s : string) : option (list (string * string)) :=
  match fuel with
  | 0 => None
  | S fuel' =>
      match read_pair s with
      | Some (kv, s1) =>
          match read_char "}" s1 with
          | Some s2 =>
              match skip_spaces s2 with
              | EmptyString => Some [kv]
              | _ => None
              end
          | None =>
              match read_char "," s1 with
              | Some s2 =>
                  match read_pairs fuel' s2 with
                  | Some kvs => Some (kv :: kvs)
                  | None => None
                  end
              | None => None
              end
          end
      | None => None
      end
  end.

Definition parse_string_object (s : string) : option (list (string * string)) :=
  match read_char "{" s with
  | Some s1 =>
      match read_char "}" s1 with
      | Some s2 =>
          match skip_spaces s2 with
          | EmptyString => Some []
          | _ => None
          end
      | None => read_pairs (String.length s) s1
      end
  | None => None
  end.

End Assembler.

(** ** Sessions in evaluation format *)

Module Evals.

(** [cli/utils/evals.py].  The classes of the session, of its events and of
    their contents are not among the sources: [Ev] is the class of the events
    with its equality ([==]), [Args] the class of the arguments of a function
    call with [empty_args] the empty dictionary; of the other classes the
    fields the function reads are kept. *)
Section convert.
Context {Args Ev : Type} `{EqDecision Ev} (empty_args : Args).

Record FunctionCall := mkFunctionCall {
  name : option string;
  args : option Args;
}.

Record Part := mkPart {
  text : option string;
  function_call : option FunctionCall;
}.

Record Content := mkContent {
  parts : option (list Part);
}.

Context (author : Ev -> option string) (content : Ev -> option Content).

Record Session := mkSession {
  events : list Ev;
}.

(** The dictionaries of the result. *)
Record ToolUse := mkToolUse {
  tool_name : string;
  tool_input : Args;
}.

Record Response := mkResponse {
  response_author : string;
  response_text : string;
}.

Record EvalCase := mkEvalCase {
  query : string;
  expected_tool_use : list ToolUse;
  expected_intermediate_agent_responses : list Response;
  reference : string;
}.

(** [x or ''] for a string that may be [None]. *)
Definition or_empty (x : option string) : string := default EmptyString x.

(** [if x:] for a string that may be [None]. *)
Definition truthy (x : option string) : bool :=
  match x with Some (String _ _) => true | _ => false end.

(** [subsequent_event.author or 'agent']. *)
Definition author_or_agent (event : Ev) : string :=
  match author event with
  | Some (String c s) => String c s
  | _ => "agent"
  end.

(** The parts of an event that passes the test [not event.content or not
    event.content.parts]: the first one and the others. *)
Definition nonempty_parts (event : Ev) : option (Part * list Part) :=
  match content event with
  | Some c =>
      match parts c with
      | Some (first :: others) => Some (first, others)
      | _ => None
      end
  | None => None
  end.

(** [for subsequent_part in subsequent_event.content.parts: ...]: the two
    lists [expected_tool_use] and [intermediate_agent_responses] grow. *)
Fixpoint for_parts (event_author : string) (ps : list Part)
    (acc : list ToolUse * list Response) : list ToolUse * list Response :=
  match ps with
  | [] => acc
  | subsequent_part :: rest =>
      for_parts event_author rest
        match function_call subsequent_part with
        | Some fc =>
            (acc.1 ++ [mkToolUse (or_empty (name fc))
                                 (default empty_args (args fc))],
             acc.2)
        | None =>
            if truthy (text subsequent_part)
            then (acc.1,
                  acc.2 ++ [mkResponse event_author
                                       (or_empty (text subsequent_part))])
            else acc
        end
  end.

(** [for subsequent_event in events[...]: ...], with its [break] at an event
    of the user and its [continue] at an event without parts. *)
Fixpoint for_subsequent (subsequent : list Ev)
    (acc : list ToolUse * list Response) : list ToolUse * list Response :=
  match subsequent with
  | [] => acc
  | subsequent_event :: rest =>
      if decide (author_or_agent subsequent_event = "user") then acc
      else
        match nonempty_parts subsequent_event with
        | None => for_subsequent rest acc
        | Some (first, others) =>
            for_subsequent rest
              (for_parts (author_or_agent subsequent_event) (first :: others) acc)
        end
  end.

(** [events.index(event)]: the first position of an event equal to [event];
    [None] stands for the [ValueError] of an event that is not in the
    list. *)
Definition index (event : Ev) (evs : list Ev) : option nat :=
  fst <$> list_find (fun e => e = event) evs.

(** The dictionary appended to [eval_case] at the end of a turn. *)
Definition close_turn (q : string) (turn : list ToolUse * list Response)
    : EvalCase :=
  mkEvalCase q turn.1 (removelast turn.2)
             (match last turn.2 with
              | Some r => response_text r
              | None => EmptyString
              end).

(** [for event in events: ...]; [None] when [events.index] raises. *)
Fixpoint for_events (evs : list Ev) (todo : list Ev) (eval_case : list EvalCase)
    : option (list EvalCase) :=
  match todo with
  | [] => Some eval_case
  | event :: rest =>
      if decide (author event = Some "user") then
        match nonempty_parts event with
        | None => for_events evs rest eval_case
        | Some (first, _) =>
            match index event evs with
            | None => None
            | Some i =>
                for_events evs rest
                  (eval_case ++
                   [close_turn (or_empty (text first))
                               (for_subsequent (drop (S i) evs) ([], []))])
            end
        end
      else for_events evs rest eval_case
  end.

Definition convert_session_to_eval_format (session : option Session)
    : option (list EvalCase) :=
  let evs := match session with Some s => events s | None => [] end in
  for_events evs evs [].

(** *** What the result is, said without loops *)

(** The function calls and the texts of an event, in the order of its
    parts; a part with a function call counts as a function call only. *)
Definition tool_uses_of (event : Ev) : list ToolUse :=
  match nonempty_parts event with
  | Some (first, others) =>
      omap (fun p => match function_call p with
                     | Some fc => Some (mkToolUse (or_empty (name fc))
                                                  (default empty_args (args fc)))
                     | None => None
                     end) (first :: others)
  | None => []
  end.

Definition responses_of (event : Ev) : list Response :=
  match nonempty_parts event with
  | Some (first, others) =>
      omap (fun p => match function_call p with
                     | Some _ => None
                     | None =>
                         if truthy (text p)
                         then Some (mkResponse (author_or_agent event)
                                               (or_empty (text p)))
                         else None
                     end) (first :: others)
  | None => []
  end.

(** The events of a turn: those that follow, up to the next event of the
    user. *)
Fixpoint turn (subsequent : list Ev) : list Ev :=
  match subsequent with
  | [] => []
  | e :: rest =>
      if decide (author_or_agent e = "user") then [] else e :: turn rest
  end.

(** One case for each event of the user that has parts, made of the events
    that follow it. *)
Fixpoint turns (evs : list Ev) : list EvalCase :=
  match evs with
  | [] => []
  | event :: rest =>
      if decide (author event = Some "user") then
        match nonempty_parts event with
        | Some (first, _) =>
            close_turn (or_empty (text first))
                       (turn rest ≫= tool_uses_of, turn rest ≫= responses_of)
            :: turns rest
        | None => turns rest
        end
      else turns rest
  end.

(** The query of an event, when the event opens a case. *)
Definition query_of (event : Ev) : option string :=
  if decide (author event = Some "user") then
    (fun p => or_empty (text p.1)) <$> nonempty_parts event
  else None.

End convert.

(** *** Events for the examples *)

(** An event with an identifier, an author and the text of its only part
    ([None]: no content). *)
Record SampleEvent := mkSampleEvent {
  sample_id : nat;
  sample_author : option string;
  sample_text : option string;
}.

#[export] Instance SampleEvent_eq_dec : EqDecision SampleEvent.
Proof. solve_decision. Defined.

Definition sample_content (e : SampleEvent) : option (Content (Args:=unit)) :=
  match sample_text e with
  | Some t => Some (mkContent (Some [mkPart (Some t) None]))
  | None => None
  end.

Definition sample_convert (evs : list SampleEvent) : option (list EvalCase) :=
  convert_session_to_eval_format () sample_author sample_content
    (Some (mkSession evs)).

(** A greeting of the agent, then two turns; in the first one an event
    without author answers before the agent does. *)
Definition sample_greeting : list SampleEvent :=
  [mkSampleEvent 0 (Some "agent") (Some "welcome")].

Definition sample_first_turn : list SampleEvent :=
  [mkSampleEvent 1 (Some "user") (Some "hello");
   mkSampleEvent 2 None (Some "thinking");
   mkSampleEvent 3 (Some "agent") (Some "hi there")].

Definition sample_second_query : SampleEvent :=
  mkSampleEvent 4 (Some "user") (Some "bye").

Definition sample_second_answer : list SampleEvent :=
  [mkSampleEvent 5 (Some "agent") (Some "goodbye")].

Definition sample_events : list SampleEvent :=
  sample_greeting ++ sample_first_turn
    ++ sample_second_query :: sample_second_answer.

End Evals.

(** * Properties *)

(** ** Branch paths *)

Module BranchFacts.
Import Branch.

Lemma extended_branch_truthy b n :
  truthy b = true ->
  extended_branch b n = default EmptyString b +:+ "." +:+ n.
Proof. destruct b as [[|c s]|]; simpl; intros H; congruence. Qed.

Lemma extended_branch_falsy b n :
  truthy b = false -> extended_branch b n = n.
Proof. destruct b as [[|c s]|]; simpl; intros H; congruence. Qed.

(** C10, as amended.  After [_set_branch_for_current_agent] the branch of the
    context is the old branch, a dot and the name of the agent when the old
    branch was not empty, and the name of the agent alone when the old branch
    was empty or unset.  It is empty exactly when the old branch was empty or
    unset and the name is empty; it begins with the separator exactly when
    the old branch, not empty, begins with it, or the old branch was empty or
    unset and the name begins with it. *)
Theorem set_branch_appends_name current_agent_name ctx :
  let old := branch ctx in
  let new := extended_branch old current_agent_name in
  branch (_set_branch_for_current_agent current_agent_name ctx) = Some new /\
  (truthy old = true -> new = default EmptyString old +:+ "." +:+ current_agent_name) /\
  (truthy old = false -> new = current_agent_name) /\
  (is_empty new = true <-> truthy old = false /\ current_agent_name = EmptyString) /\
  (starts_with_sep new = true <->
     (truthy old = true /\ starts_with_sep (default EmptyString old) = true) \/
     (truthy old = false /\ starts_with_sep current_agent_name = true)).
Proof.
  intros old new. subst new. split; [done|].
  split; [apply extended_branch_truthy|].
  split; [apply extended_branch_falsy|].
  destruct old as [[|c s]|]; destruct current_agent_name as [|d n]; simpl;
    intuition (try congruence; try discriminate).
Qed.

(** C10, as stated, fails: a branch that begins with the separator keeps
    it, and an empty name under an unset branch gives the empty branch. *)
Lemma set_branch_leading_separator :
  (exists s,
     branch (_set_branch_for_current_agent "X"
               {| invocation_id := "inv"; branch := Some ".a" |}) = Some s /\
     ~ (is_empty s = false /\ starts_with_sep s = false)) /\
  (exists s,
     branch (_set_branch_for_current_agent EmptyString
               {| invocation_id := "inv"; branch := None |}) = Some s /\
     ~ (is_empty s = false /\ starts_with_sep s = false)).
Proof.
  split.
  - exists ".a.X". split; [reflexivity|]. intros [_ H]. discriminate H.
  - exists EmptyString. split; [reflexivity|]. intros [H _]. discriminate H.
Qed.

Lemma set_branch_appends_name_witness :
  let ctx := {| invocation_id := "inv"; branch := Some "a" |} in
  truthy (branch ctx) = true /\
  extended_branch (branch ctx) "b" = "a.b".
Proof.
  intros ctx. split; [reflexivity|].
  destruct (set_branch_appends_name "b" ctx) as (_ & H & _).
  apply H. reflexivity.
Defined.

(** *** Nested and sibling agents *)

Lemma string_app_assoc (s1 s2 s3 : string) :
  (s1 +:+ s2) +:+ s3 = s1 +:+ (s2 +:+ s3).
Proof.
  induction s1 as [|c s1 IH]; [done|].
  change (String c ((s1 +:+ s2) +:+ s3) = String c (s1 +:+ s2 +:+ s3)).
  by rewrite IH.
Qed.

Lemma concat_dot_cons s n names :
  String.concat "." ((s +:+ "." +:+ n) :: names)
  = String.concat "." (s :: n :: names).
Proof.
  destruct names as [|m ms]; [done|].
  change (((s +:+ "." +:+ n) +:+ "." +:+ String.concat "." (m :: ms))
          = s +:+ "." +:+ n +:+ "." +:+ String.concat "." (m :: ms)).
  by rewrite !string_app_assoc.
Qed.

Lemma set_branch_along_cons n names ctx :
  set_branch_along (n :: names) ctx
  = set_branch_along names (_set_branch_for_current_agent n ctx).
Proof. reflexivity. Qed.

Lemma set_branch_along_nonempty names : forall ctx c s,
  branch ctx = Some (String c s) ->
  Forall (fun n => n <> EmptyString) names ->
  branch (set_branch_along names ctx)
  = Some (String.concat "." (String c s :: names)).
Proof.
  induction names as [|n names IH]; intros ctx c s Hb Hne; [done|].
  apply Forall_cons in Hne as [Hn Hne].
  rewrite set_branch_along_cons.
  rewrite (IH _ c (s +:+ "." +:+ n)); [|by simpl; rewrite Hb|done].
  by rewrite <- concat_dot_cons.
Qed.

(** X16.  Agents that enter one after the other on the same context leave
    the path of their names in its branch: when no name is empty, after
    [_set_branch_for_current_agent] has been called for each of them in turn
    the branch is the old branch (if it was set and not empty) and the
    names, in the order of the calls, joined by dots. *)
Theorem set_branch_along_path names ctx :
  names <> [] -> Forall (fun n => n <> EmptyString) names ->
  branch (set_branch_along names ctx)
  = Some (String.concat "." (branch_parts (branch ctx) ++ names)).
Proof.
  intros Hnil Hne. destruct (branch ctx) as [[|c s]|] eqn:Hb; simpl.
  2: by apply set_branch_along_nonempty.
  all: destruct names as [|[|d n] names]; [done| |];
    apply Forall_cons in Hne as [Hn Hne]; [done|];
    rewrite set_branch_along_cons;
    rewrite (set_branch_along_nonempty names _ d n); [done| |done];
    simpl; by rewrite Hb.
Qed.

(** X17.  Agents with different names leave different branches on contexts
    with the same branch: the branch tells siblings apart. *)
Theorem set_branch_tells_siblings_apart name1 name2 ctx1 ctx2 :
  branch ctx1 = branch ctx2 -> name1 <> name2 ->
  branch (_set_branch_for_current_agent name1 ctx1)
  <> branch (_set_branch_for_current_agent name2 ctx2).
Proof.
  intros Hb Hne. simpl. rewrite Hb. intros [= Heq]. apply Hne.
  destruct (branch ctx2) as [[|c s]|]; simpl in Heq; try done.
  inversion Heq as [Heq']. apply (inj (String.append s)) in Heq'.
  by inversion Heq'.
Qed.

Lemma set_branch_along_path_witness :
  let ctx := {| invocation_id := "inv"; branch := Some "root" |} in
  ["parallel"; "child"] <> [] /\
  Forall (fun n => n <> EmptyString) ["parallel"; "child"] /\
  branch (set_branch_along ["parallel"; "child"] ctx)
  = Some "root.parallel.child".
Proof.
  intros ctx.
  assert (H1 : ["parallel"; "child"] <> []) by discriminate.
  assert (H2 : Forall (fun n => n <> EmptyString) ["parallel"; "child"])
    by (apply (bool_decide_unpack _); vm_compute; exact I).
  split; [exact H1|]. split; [exact H2|].
  exact (set_branch_along_path ["parallel"; "child"] ctx H1 H2).
Defined.

Lemma set_branch_tells_siblings_apart_witness :
  let ctx := {| invocation_id := "inv"; branch := Some "root" |} in
  branch ctx = branch ctx /\ "a" <> "b" /\
  branch (_set_branch_for_current_agent "a" ctx)
  <> branch (_set_branch_for_current_agent "b" ctx).
Proof.
  intros ctx.
  assert (H : "a" <> "b") by discriminate.
  split; [reflexivity|]. split; [exact H|].
  exact (set_branch_tells_siblings_apart "a" "b" ctx ctx eq_refl H).
Defined.
End BranchFacts.

(** ** The fan-in merger *)

Module MergeFacts.
Import Merge.

Ltac case_dec :=
  repeat match goal with |- context [decide ?P] => destruct (decide P) end.

Section structure.
Context {G W E X : Type} `{!AsyncGenerator G W E X}.
Implicit Types (st : State (G:=G) (W:=W) (E:=E) (X:=X)) (t : Task).

Lemma init_wf (runs : list G) (w : W) : wf (init (E:=E) (X:=X) runs w).
Proof.
  split; simpl.
  - by rewrite length_fmap, length_seq.
  - intros i t Hi. apply list_lookup_fmap_Some in Hi as (j & -> & Hj).
    apply lookup_seq in Hj as [-> Hlt]. simpl. split; [done|].
    unfold task_id; simpl. lia.
  - intros [a b] Ht. apply elem_of_list_to_set, list_elem_of_fmap in Ht
      as (j & Heq & Hj). inversion Heq; subst. unfold task_gen; simpl.
    apply elem_of_seq in Hj. rewrite list_lookup_fmap.
    rewrite lookup_seq_lt by lia. done.
Qed.

Lemma named_spec choice st t :
  t ∈ named choice st -> t ∈ pending_tasks st.
Proof.
  unfold named. rewrite elem_of_remove_dups, list_elem_of_filter. tauto.
Qed.

Lemma wait_spec choice st :
  pending_tasks st <> ∅ ->
  wait choice st <> [] /\ NoDup (wait choice st) /\
  forall t, t ∈ wait choice st -> t ∈ pending_tasks st.
Proof.
  intros Hne. unfold wait.
  destruct (named choice st) as [|t0 l] eqn:Hn.
  - destruct (elements (pending_tasks st)) as [|t1 l1] eqn:He.
    + apply elements_empty_inv in He. apply leibniz_equiv in He. done.
    + simpl. split; [done|]. split.
      * apply NoDup_singleton.
      * intros t Ht. apply list_elem_of_singleton in Ht as ->.
        apply elem_of_elements. rewrite He. left.
  - split; [done|]. rewrite <- Hn. split.
    + apply NoDup_remove_dups.
    + intros t. apply named_spec.
Qed.

Lemma result_spec t st r st1 :
  result t st = (r, st1) ->
  tasks st1 = tasks st /\ pending_tasks st1 = pending_tasks st /\
  created st1 = created st /\ trace st1 = trace st /\
  length (agent_runs st1) = length (agent_runs st) /\
  forall g, agent_runs st !! task_gen t = Some g ->
    exists g' w', anext g (world st) = (r, g', w') /\
      agent_runs st1 = <[task_gen t := g']> (agent_runs st) /\ world st1 = w'.
Proof.
  unfold result. destruct (agent_runs st !! task_gen t) as [g|] eqn:Hg.
  - destruct (anext g (world st)) as [[r' g'] w'] eqn:Ha.
    intros [= <- <-]. simpl. rewrite length_insert.
    repeat split; try done. intros g0 [= <-]. eauto.
  - intros [= <- <-]. repeat split; try done.
Qed.

Lemma find_latest t st :
  wf st -> tasks st !! task_gen t = Some t ->
  find_and_move_on t st = move_on (task_gen t) st.
Proof.
  intros Hwf Ht. unfold find_and_move_on.
  destruct (list_find _ _) as [[i u]|] eqn:Hf.
  - apply list_find_Some in Hf as (Hi & <- & _).
    apply (wf_tasks _ Hwf) in Hi as [<- _]. done.
  - apply list_find_None in Hf. rewrite Forall_forall in Hf.
    exfalso. apply (Hf t); [|done].
    eapply list_elem_of_lookup_2; eauto.
Qed.


Lemma latest_unique st t u :
  tasks st !! task_gen t = Some t -> tasks st !! task_gen u = Some u ->
  task_gen u = task_gen t -> u = t.
Proof. intros Ht Hu Heq. rewrite Heq in Hu. congruence. Qed.

Lemma astep_yield' (a a' : Active) i g e g' w' :
  i ∈ a_active a -> a_runs a !! i = Some g ->
  anext g (a_world a) = (Produced e, g', w') ->
  a' = mkActive (<[i := g']> (a_runs a)) w' (a_active a)
                (a_trace a ++ [Yield i e; Fetch i]) ->
  astep a a'.
Proof. destruct a. simpl. intros ??? ->. by eapply astep_yield. Qed.

Lemma astep_stop' (a a' : Active) i g g' w' :
  i ∈ a_active a -> a_runs a !! i = Some g ->
  anext g (a_world a) = (Exhausted, g', w') ->
  a' = mkActive (<[i := g']> (a_runs a)) w' (a_active a ∖ {[i]}) (a_trace a) ->
  astep a a'.
Proof. destruct a. simpl. intros ??? ->. by eapply astep_stop. Qed.

Lemma afail_raise' (a a' : Active) i g x g' w' :
  i ∈ a_active a -> a_runs a !! i = Some g ->
  anext g (a_world a) = (Failed x, g', w') ->
  a' = mkActive (<[i := g']> (a_runs a)) w' (a_active a ∖ {[i]})
                (a_trace a ++ [Raise x]) ->
  afail a x a'.
Proof. destruct a. simpl. intros ??? ->. by eapply afail_raise. Qed.

Lemma active_of_cons t rest st :
  active_of (t :: rest) st = {[task_gen t]} ∪ active_of rest st.
Proof.
  unfold active_of. rewrite fmap_cons, list_to_set_cons.
  rewrite !assoc_L by apply _. f_equal. apply (comm_L _).
Qed.

Lemma active_of_move_on i rest st :
  active_of rest (move_on i st) = {[i]} ∪ active_of rest st.
Proof.
  unfold active_of. simpl. rewrite set_map_union_L, set_map_singleton_L.
  by rewrite assoc_L by apply _.
Qed.

Lemma active_of_ext rest st st1 :
  pending_tasks st1 = pending_tasks st -> active_of rest st1 = active_of rest st.
Proof. unfold active_of. by intros ->. Qed.

(** Reading an Event: the source stays active, with a new latest task. *)
Lemma produced_step t rest st st1 e :
  wf st -> batch_ok (t :: rest) st ->
  result t st = (Produced e, st1) ->
  let st2 := find_and_move_on t (emit (Yield (task_gen t) e) st1) in
  wf st2 /\ batch_ok rest st2 /\ astep (abs (t :: rest) st) (abs rest st2).
Proof.
  intros Hwf Hb Hr st2.
  pose proof (batch_tasks _ _ Hb t ltac:(left)) as Ht.
  pose proof (batch_apart _ _ Hb t ltac:(left)) as Hnp.
  pose proof (batch_nodup _ _ Hb) as Hnd. apply NoDup_cons in Hnd as [Hnr Hnd].
  destruct (result_spec _ _ _ _ Hr) as (Et & Ep & Ec & Etr & El & Hg).
  assert (Hlt : task_gen t < length (agent_runs st)).
  { rewrite <- (wf_len _ Hwf). by eapply lookup_lt_Some. }
  destruct (lookup_lt_is_Some_2 _ _ Hlt) as [g Hgl].
  destruct (Hg g Hgl) as (g' & w' & Ha & Er & Ew).
  assert (Hwf1 : wf (emit (Yield (task_gen t) e) st1)).
  { split; simpl; rewrite ?Et, ?Ep, ?Ec, ?El; apply Hwf. }
  assert (Est2 : st2 = move_on (task_gen t) (emit (Yield (task_gen t) e) st1)).
  { apply find_latest; [done|]. simpl. by rewrite Et. }
  rewrite Est2. clear Est2 st2. split; [|split].
  - split; simpl; rewrite ?Et, ?Ep, ?Ec, ?El.
    + rewrite length_insert. apply Hwf.
    + intros j u Hj. destruct (decide (task_gen t = j)) as [<-|Hne].
      * rewrite list_lookup_insert_eq in Hj by (by eapply lookup_lt_Some).
        inversion Hj; subst. unfold task_gen, task_id; simpl. split; [done|lia].
      * rewrite list_lookup_insert_ne in Hj by done.
        apply (wf_tasks _ Hwf) in Hj as [? ?]. split; [done|lia].
    + intros u Hu. apply elem_of_union in Hu as [Hu|Hu].
      * apply elem_of_singleton in Hu as ->. unfold task_gen at 1; simpl.
        rewrite list_lookup_insert_eq by (by eapply lookup_lt_Some). done.
      * pose proof (wf_pending _ Hwf _ Hu) as Hl.
        rewrite list_lookup_insert_ne; [done|].
        intros Heq. apply Hnp. by rewrite <- (latest_unique st t u).
  - split; simpl; rewrite ?Et, ?Ep.
    + done.
    + intros u Hu. pose proof (batch_tasks _ _ Hb u ltac:(by right)) as Hl.
      rewrite list_lookup_insert_ne; [done|].
      intros Heq. apply Hnr. by rewrite <- (latest_unique st t u).
    + intros u Hu. pose proof (batch_tasks _ _ Hb u ltac:(by right)) as Hl.
      pose proof (batch_apart _ _ Hb u ltac:(by right)) as Hup.
      apply (wf_tasks _ Hwf) in Hl as [_ Hid].
      intros Hin. apply elem_of_union in Hin as [Hin|Hin]; [|done].
      apply elem_of_singleton in Hin. subst u. unfold task_id in Hid.
      simpl in Hid. rewrite Ec in Hid. lia.
  - eapply astep_yield' with (i := task_gen t); simpl; eauto.
    + rewrite active_of_cons. apply elem_of_union_l. by apply elem_of_singleton.
    + unfold abs. rewrite active_of_move_on, active_of_cons. simpl.
      rewrite (active_of_ext rest st (emit _ st1)) by (unfold emit; simpl; congruence).
      unfold move_on, emit; simpl. rewrite Er, Ew, Etr, <- app_assoc. done.
Qed.

Lemma not_active t rest st :
  wf st -> batch_ok (t :: rest) st -> task_gen t ∉ active_of rest st.
Proof.
  intros Hwf Hb.
  pose proof (batch_tasks _ _ Hb t ltac:(left)) as Ht.
  pose proof (batch_apart _ _ Hb t ltac:(left)) as Hnp.
  pose proof (batch_nodup _ _ Hb) as Hnd. apply NoDup_cons in Hnd as [Hnr Hnd].
  unfold active_of.
  rewrite elem_of_union, elem_of_map, elem_of_list_to_set, list_elem_of_fmap.
  intros [(u & Heq & Hu)|(u & Heq & Hu)].
  - apply Hnp. rewrite <- (latest_unique st t u); auto.
    by apply (wf_pending _ Hwf).
  - apply Hnr. rewrite <- (latest_unique st t u); auto.
    apply (batch_tasks _ _ Hb). by right.
Qed.

Lemma leave_active (i : nat) (A : gset nat) : i ∉ A -> ({[i]} ∪ A) ∖ {[i]} = A.
Proof.
  intros Hi. apply set_eq. intros j.
  rewrite elem_of_difference, elem_of_union, elem_of_singleton.
  split; [intros [[->|?] ?]; done|].
  intros Hj. split; [by right|]. by intros ->.
Qed.

(** Reading the end of a source: the source leaves the active set. *)
Lemma exhausted_step t rest st st1 :
  wf st -> batch_ok (t :: rest) st ->
  result t st = (Exhausted, st1) ->
  wf st1 /\ batch_ok rest st1 /\ astep (abs (t :: rest) st) (abs rest st1).
Proof.
  intros Hwf Hb Hr.
  pose proof (not_active _ _ _ Hwf Hb) as Hna.
  destruct (result_spec _ _ _ _ Hr) as (Et & Ep & Ec & Etr & El & Hg).
  assert (Hlt : task_gen t < length (agent_runs st)).
  { rewrite <- (wf_len _ Hwf). eapply lookup_lt_Some.
    apply (batch_tasks _ _ Hb). left. }
  destruct (lookup_lt_is_Some_2 _ _ Hlt) as [g Hgl].
  destruct (Hg g Hgl) as (g' & w' & Ha & Er & Ew).
  split; [|split].
  - split; simpl; rewrite ?Et, ?Ep, ?Ec, ?El; apply Hwf.
  - split; simpl; rewrite ?Et, ?Ep.
    + pose proof (batch_nodup _ _ Hb) as Hnd. by apply NoDup_cons in Hnd as [_ ?].
    + intros u Hu. apply (batch_tasks _ _ Hb). by right.
    + intros u Hu. apply (batch_apart _ _ Hb). by right.
  - eapply astep_stop' with (i := task_gen t); simpl; eauto.
    + rewrite active_of_cons. apply elem_of_union_l. by apply elem_of_singleton.
    + unfold abs. simpl. rewrite active_of_cons, leave_active by done.
      rewrite (active_of_ext rest st st1) by done. by rewrite Er, Ew, Etr.
Qed.

(** Reading a failure: the exception escapes; the tasks of the other
    sources stay as they are. *)
Lemma failed_step t rest st st1 x :
  wf st -> batch_ok (t :: rest) st ->
  result t st = (Failed x, st1) ->
  wf (emit (Raise x) st1) /\
  pending_tasks st1 = pending_tasks st /\
  exists a2, afail (abs (t :: rest) st) x a2 /\
    a_runs a2 = agent_runs st1 /\ a_world a2 = world st1 /\
    a_trace a2 = trace st1 ++ [Raise x] /\
    a_active a2 = active_of rest st.
Proof.
  intros Hwf Hb Hr.
  pose proof (not_active _ _ _ Hwf Hb) as Hna.
  destruct (result_spec _ _ _ _ Hr) as (Et & Ep & Ec & Etr & El & Hg).
  assert (Hlt : task_gen t < length (agent_runs st)).
  { rewrite <- (wf_len _ Hwf). eapply lookup_lt_Some.
    apply (batch_tasks _ _ Hb). left. }
  destruct (lookup_lt_is_Some_2 _ _ Hlt) as [g Hgl].
  destruct (Hg g Hgl) as (g' & w' & Ha & Er & Ew).
  split; [|split; [done|]].
  - split; simpl; rewrite ?Et, ?Ep, ?Ec, ?El; apply Hwf.
  - eexists. split.
    + eapply afail_raise' with (i := task_gen t); simpl; eauto.
      rewrite active_of_cons. apply elem_of_union_l. by apply elem_of_singleton.
    + simpl. rewrite Er, Ew, Etr, active_of_cons, leave_active by done. done.
Qed.

(** The [for] loop over [done] reads the results of the tasks of [done],
    one step of the machine for each. *)
Lemma for_done_refines done : forall st st' ox,
  wf st -> batch_ok done st -> for_done done st = (st', ox) ->
  wf st' /\
  match ox with
  | None => nsteps astep (length done) (abs done st) (abs [] st')
  | Some x =>
      exists a1 a2, rtc astep (abs done st) a1 /\ afail a1 x a2 /\
        a_runs a2 = agent_runs st' /\ a_world a2 = world st' /\
        a_trace a2 = trace st' /\
        set_map task_gen (pending_tasks st') ⊆ a_active a2
  end.
Proof.
  induction done as [|t rest IH]; intros st st' ox Hwf Hb Hrun; simpl in Hrun.
  - inversion Hrun; subst. split; [done|]. constructor.
  - destruct (result t st) as [[e| |x] st1] eqn:Hr.
    + destruct (produced_step _ _ _ _ _ Hwf Hb Hr) as (Hwf2 & Hb2 & Hstep).
      destruct (IH _ _ _ Hwf2 Hb2 Hrun) as [Hwf' Hrest]. split; [done|].
      destruct ox as [x|].
      * destruct Hrest as (a1 & a2 & Hrtc & Hf & ? & ? & ? & ?).
        exists a1, a2. repeat split; try done. by eapply rtc_l.
      * simpl. by eapply nsteps_l.
    + destruct (exhausted_step _ _ _ _ Hwf Hb Hr) as (Hwf2 & Hb2 & Hstep).
      destruct (IH _ _ _ Hwf2 Hb2 Hrun) as [Hwf' Hrest]. split; [done|].
      destruct ox as [x|].
      * destruct Hrest as (a1 & a2 & Hrtc & Hf & ? & ? & ? & ?).
        exists a1, a2. repeat split; try done. by eapply rtc_l.
      * simpl. by eapply nsteps_l.
    + inversion Hrun; subst.
      destruct (failed_step _ _ _ _ _ Hwf Hb Hr) as (Hwf2 & Ep & a2 & Hf & ? & ? & ? & Hact).
      split; [done|]. exists (abs (t :: rest) st), a2.
      repeat split; try done.
      rewrite Hact. simpl. rewrite Ep. unfold active_of. apply union_subseteq_l.
Qed.

(** After [asyncio.wait] the tasks of [done] are no longer pending, and
    their sources are still active until their results are read. *)
Lemma wait_batch choice st :
  wf st -> pending_tasks st <> ∅ ->
  let done := wait choice st in
  let st0 := with_pending (pending_tasks st ∖ list_to_set done) st in
  wf st0 /\ batch_ok done st0 /\ abs done st0 = abs [] st /\ 0 < length done.
Proof.
  intros Hwf Hne done st0.
  destruct (wait_spec choice st Hne) as (Hnil & Hnd & Hin).
  fold done in Hnil, Hnd, Hin. split; [|split; [|split]].
  - split; simpl; try apply Hwf.
    intros t Ht. apply elem_of_difference in Ht as [Ht _].
    by apply (wf_pending _ Hwf).
  - split; simpl; [done| |].
    + intros t Ht. apply (wf_pending _ Hwf). auto.
    + intros t Ht. rewrite elem_of_difference, elem_of_list_to_set. tauto.
  - unfold abs. simpl. f_equal. unfold active_of. simpl.
    rewrite union_empty_r_L. apply set_eq. intros i.
    rewrite !elem_of_union, !elem_of_map, !elem_of_list_to_set,
      list_elem_of_fmap.
    split.
    + intros [(u & -> & Hu)|(u & -> & Hu)]; exists u; split; auto.
      by apply elem_of_difference in Hu as [? _].
    + intros (u & -> & Hu).
      destruct (decide (u ∈ done)) as [Hd|Hd]; [right; eauto|].
      left. exists u. split; [done|]. rewrite elem_of_difference, elem_of_list_to_set. done.
  - destruct done; [done|simpl; lia].
Qed.

Theorem while_refines sched : forall st st' o,
  wf st -> while_pending sched st = (st', o) ->
  wf st' /\
  match o with
  | Completed => rtc astep (abs [] st) (abs [] st') /\ pending_tasks st' = ∅
  | Suspended => rtc astep (abs [] st) (abs [] st')
  | Raised x =>
      exists a1 a2, rtc astep (abs [] st) a1 /\ afail a1 x a2 /\
        a_runs a2 = agent_runs st' /\ a_world a2 = world st' /\
        a_trace a2 = trace st' /\
        set_map task_gen (pending_tasks st') ⊆ a_active a2
  end.
Proof.
  induction sched as [|choice sched IH]; intros st st' o Hwf Hrun;
    simpl in Hrun; destruct (decide (pending_tasks st = ∅)) as [He|Hne];
    try (inversion Hrun; subst; split; [done|]; try split; done).
  destruct (wait_batch choice st Hwf Hne) as (Hwf0 & Hb0 & Habs & _).
  destruct (for_done _ _) as [st1 [x|]] eqn:Hfor.
  - inversion Hrun; subst.
    destruct (for_done_refines _ _ _ _ Hwf0 Hb0 Hfor) as [Hwf1 Hp].
    split; [done|]. by rewrite Habs in Hp.
  - destruct (for_done_refines _ _ _ _ Hwf0 Hb0 Hfor) as [Hwf1 Hp].
    rewrite Habs in Hp. apply rtc_nsteps_2 in Hp.
    destruct (IH _ _ _ Hwf1 Hrun) as [Hwf' Hrest]. split; [done|].
    destruct o as [|x|].
    + destruct Hrest. split; [by etrans|done].
    + destruct Hrest as (a1 & a2 & ? & ?). exists a1, a2. split; [by etrans|done].
    + by etrans.
Qed.

Lemma abs_of_init (runs : list G) (w : W) :
  abs [] (init (E:=E) (X:=X) runs w) = abs_init runs w.
Proof.
  unfold abs, abs_init, active_of. simpl. f_equal.
  rewrite union_empty_r_L. apply set_eq. intros i.
  rewrite elem_of_map, elem_of_list_to_set. split.
  - intros ([a b] & -> & Hu). apply elem_of_list_to_set, list_elem_of_fmap in Hu
      as (j & Heq & Hj). by inversion Heq; subst.
  - intros Hi. exists (i, i). split; [done|].
    apply elem_of_list_to_set, list_elem_of_fmap. eauto.
Qed.

(** Every run of the merger is a path of the machine over active sources. *)
Theorem run_refines (runs : list G) (w : W) sched st' o :
  _merge_agent_run runs w sched = (st', o) ->
  wf st' /\
  match o with
  | Completed => rtc astep (abs_init runs w) (abs [] st') /\ pending_tasks st' = ∅
  | Suspended => rtc astep (abs_init runs w) (abs [] st')
  | Raised x =>
      exists a1 a2, rtc astep (abs_init runs w) a1 /\ afail a1 x a2 /\
        a_runs a2 = agent_runs st' /\ a_world a2 = world st' /\
        a_trace a2 = trace st' /\
        set_map task_gen (pending_tasks st') ⊆ a_active a2
  end.
Proof.
  intros Hrun. rewrite <- abs_of_init.
  apply (while_refines sched _ _ _ (init_wf runs w) Hrun).
Qed.
End structure.

Section backpressure.
Context {G W E X : Type} `{!AsyncGenerator G W E X}.
Local Abbreviation Fetch := (Fetch (E:=E) (X:=X)).
Implicit Types (tr p : list (Action E X)) (a : Active (G:=G) (W:=W) (E:=E) (X:=X)).

Lemma fetches_snoc i tr x : fetches i (tr ++ [x]) = fetches i tr + count_fetch i x.
Proof.
  unfold fetches, fetched_from. rewrite omap_app, length_app. f_equal.
  destruct x; simpl; try done. by case_dec.
Qed.

Lemma yields_snoc i tr x : yields i (tr ++ [x]) = yields i tr + count_yield i x.
Proof.
  unfold yields, yielded_from. rewrite omap_app, length_app. f_equal.
  destruct x; simpl; try done. by case_dec.
Qed.

Lemma prefix_snoc_cases {A} (p l : list A) x :
  p `prefix_of` l ++ [x] -> p `prefix_of` l \/ p = l ++ [x].
Proof.
  intros [k Hk]. destruct k as [|y k _] using rev_ind.
  - right. by rewrite app_nil_r in Hk.
  - left. rewrite assoc_L in Hk by apply _. apply app_inj_tail in Hk as [-> _].
    by apply prefix_app_r.
Qed.

Lemma always_snoc P tr x : always P tr -> P (tr ++ [x]) -> always P (tr ++ [x]).
Proof.
  intros Ha Hp p Hpre. apply prefix_snoc_cases in Hpre as [Hpre| ->]; auto.
Qed.

Lemma always_now P tr : always P tr -> P tr.
Proof. intros Ha. by apply Ha. Qed.

Lemma initial_fetches n :
  always one_in_flight (Fetch <$> seq 0 n) /\ balanced n (Fetch <$> seq 0 n).
Proof.
  induction n as [|n [IHa IHb]].
  - split.
    + intros p Hp. apply prefix_nil_inv in Hp as ->. intros i. simpl.
      unfold yields, fetches. simpl. lia.
    + intros i. unfold yields, fetches. simpl. case_dec; simpl; lia.
  - rewrite seq_S, fmap_app. simpl.
    assert (balanced (S n) ((Fetch <$> seq 0 n) ++ [Fetch n])) as Hb.
    { intros i. rewrite fetches_snoc, yields_snoc, IHb. simpl.
      case_dec; lia. }
    split; [|done]. apply always_snoc; [done|].
    intros i. specialize (Hb i). rewrite Hb. case_dec; lia.
Qed.

Lemma astep_backpressure a a' :
  astep a a' ->
  always one_in_flight (a_trace a) /\ balanced (length (a_runs a)) (a_trace a) ->
  always one_in_flight (a_trace a') /\ balanced (length (a_runs a')) (a_trace a').
Proof.
  intros Hstep [Ha Hb]. destruct Hstep as [gs w act tr i g e g' w' Hi Hg Hn|]; simpl in *.
  - rewrite length_insert.
    assert (Hlt : i < length gs) by (by eapply lookup_lt_Some).
    replace (tr ++ [Yield i e; Fetch i]) with ((tr ++ [Yield i e]) ++ [Fetch i])
      by (by rewrite <- app_assoc).
    assert (balanced (length gs) ((tr ++ [Yield i e]) ++ [Fetch i])) as Hb'.
    { intros j. rewrite !fetches_snoc, !yields_snoc, Hb. simpl.
      case_dec; lia. }
    split; [|done]. apply always_snoc; [apply always_snoc; [done|]|].
    + intros j. rewrite !fetches_snoc, !yields_snoc, Hb. simpl.
      case_dec; lia.
    + intros j. rewrite Hb'. case_dec; lia.
  - by rewrite length_insert.
Qed.

Lemma reachable_ind (P : Active (G:=G) (W:=W) (E:=E) (X:=X) -> Prop) a0 a :
  P a0 -> (forall a1 a2, P a1 -> astep a1 a2 -> P a2) -> rtc astep a0 a -> P a.
Proof. intros H0 Hs Hr. induction Hr; eauto. Qed.

Lemma reachable_backpressure (runs : list G) (w : W) a :
  rtc astep (abs_init runs w) a ->
  always one_in_flight (a_trace a) /\ balanced (length (a_runs a)) (a_trace a).
Proof.
  apply (reachable_ind (fun a => always one_in_flight (a_trace a) /\
            balanced (length (a_runs a)) (a_trace a))).
  - simpl. apply initial_fetches.
  - intros a1 a2 IH Hstep. by eapply astep_backpressure.
Qed.

(** C1.  At every point of a run of the merger, whatever the sources and
    the schedule: a fetch is issued to a source only when every Event fetched
    from that source before has been yielded, and of each source at most one
    fetch is outstanding (fetched and not yet yielded). *)
Theorem merge_backpressure (runs : list G) (w : W) sched :
  let tr := trace (_merge_agent_run runs w sched).1 in
  (forall p i, p ++ [Fetch i] `prefix_of` tr -> fetches i p = yields i p) /\
  (forall p i, p `prefix_of` tr -> yields i p <= fetches i p <= S (yields i p)).
Proof.
  intros tr. assert (always one_in_flight tr) as Hal.
  { subst tr. destruct (_merge_agent_run runs w sched) as [st o] eqn:Hrun.
    destruct (run_refines _ _ _ _ _ Hrun) as [_ Hp]. simpl.
    destruct o as [|x|].
    - destruct Hp as [Hp _]. by apply reachable_backpressure in Hp as [? _].
    - destruct Hp as (a1 & a2 & Hp & Hf & _ & _ & <- & _).
      apply reachable_backpressure in Hp as [Ha Hb].
      destruct Hf. simpl in *. apply always_snoc; [done|].
      intros j. rewrite fetches_snoc, yields_snoc. simpl.
      pose proof (always_now _ _ Ha j). lia.
    - by apply reachable_backpressure in Hp as [? _]. }
  split.
  - intros p i Hp. pose proof (Hal _ Hp i) as H1.
    pose proof (Hal p (prefix_app_l _ _ _ Hp) i) as H2.
    rewrite fetches_snoc, yields_snoc in H1. simpl in H1.
    destruct (decide (i = i)); [lia|done].
  - intros p i Hp. apply (Hal _ Hp).
Qed.
End backpressure.

Section sequences.
Context {E X : Type}.
Implicit Types (a : Active (G:=ListGen E X) (W:=unit) (E:=E) (X:=X)).
Implicit Types (srcs : list (ListGen E X)).

Lemma anext_produced (g g' : ListGen E X) (w w' : unit) e :
  anext g w = (Produced e, g', w') -> g = (e :: g'.1, g'.2).
Proof.
  destruct g as [[|e0 es] [|x]]; unfold anext; simpl; intros [= <- <-]; done.
Qed.

Lemma anext_exhausted (g g' : ListGen E X) (w w' : unit) :
  anext g w = (Exhausted, g', w') -> g = ([], Stop) /\ g' = ([], Stop).
Proof.
  destruct g as [[|e0 es] [|x]]; unfold anext; simpl; intros [= <-]; done.
Qed.

Lemma anext_failed (g g' : ListGen E X) (w w' : unit) x :
  anext g w = (Failed x, g', w') -> g = ([], Error x).
Proof.
  destruct g as [[|e0 es] [|y]]; unfold anext; simpl; intros [= <-]; done.
Qed.

Lemma yielded_from_app i (tr tr' : list (Action E X)) :
  yielded_from i (tr ++ tr') = yielded_from i tr ++ yielded_from i tr'.
Proof. apply omap_app. Qed.

Lemma yielded_from_fetches i (l : list nat) :
  yielded_from i (Fetch (E:=E) (X:=X) <$> l) = [].
Proof. induction l; simpl; auto. Qed.

Lemma tracks_init srcs : tracks srcs (abs_init srcs ()).
Proof.
  split; [done|].
  intros i src Hi. exists src. simpl. rewrite yielded_from_fetches.
  split; [done|]. split; [done|]. split; [done|].
  intros Hn. exfalso. apply Hn. apply elem_of_list_to_set, elem_of_seq.
  apply lookup_lt_Some in Hi. lia.
Qed.

Lemma tracks_step srcs a a' : tracks srcs a -> astep a a' -> tracks srcs a'.
Proof.
  intros [Hlen Htr] Hstep.
  destruct Hstep as [gs w act tr i g e g' w' Hi Hg Hn|gs w act tr i g g' w' Hi Hg Hn];
    (split; [by simpl in *; rewrite length_insert|]);
    intros j src Hj; destruct (Htr j src Hj) as (gj & Hgj & Hy & Hact & Hin);
    simpl in *.
  - apply anext_produced in Hn.
    destruct (decide (i = j)) as [->|Hne].
    + exists g'. rewrite list_lookup_insert_eq by (by eapply lookup_lt_Some).
      split; [done|]. assert (gj = g) as -> by congruence. subst g.
      simpl in *. rewrite yielded_from_app. simpl.
      destruct (decide (j = j)); [|done]. simpl. rewrite <- app_assoc.
      split; [done|]. split; [done|]. intros Hn. done.
    + exists gj. rewrite list_lookup_insert_ne by done.
      rewrite yielded_from_app. simpl.
      destruct (decide (i = j)); [done|]. simpl. rewrite app_nil_r. done.
  - apply anext_exhausted in Hn as [-> ->].
    destruct (decide (i = j)) as [->|Hne].
    + exists ([], Stop). rewrite list_lookup_insert_eq by (by eapply lookup_lt_Some).
      assert (gj = ([], Stop)) as -> by congruence.
      split; [done|]. split; [done|]. split.
      * intros Hd. apply elem_of_difference in Hd as [_ Hd].
        exfalso. apply Hd. by apply elem_of_singleton.
      * intros _. split; [done|]. symmetry. by apply Hact.
    + exists gj. rewrite list_lookup_insert_ne by done.
      split; [done|]. split; [done|]. split.
      * intros Hd. apply elem_of_difference in Hd as [Hd _]. auto.
      * intros Hd. apply Hin. intros Hd'. apply Hd.
        apply elem_of_difference. split; [done|]. by rewrite elem_of_singleton.
Qed.

Lemma tracks_reachable srcs a :
  rtc astep (abs_init srcs ()) a -> tracks srcs a.
Proof.
  apply (reachable_ind (tracks srcs)); [apply tracks_init|].
  intros. by eapply tracks_step.
Qed.


Lemma events_app (tr tr' : list (Action E X)) :
  events (tr ++ tr') = events tr ++ events tr'.
Proof. unfold events, yielded. by rewrite omap_app, fmap_app. Qed.

Lemma events_fetches (l : list nat) : events (Fetch (E:=E) (X:=X) <$> l) = [].
Proof. induction l; simpl; auto. Qed.

Lemma concat_take_head (ls : list (list E)) i e es :
  ls !! i = Some (e :: es) -> concat ls ≡ₚ e :: concat (<[i := es]> ls).
Proof.
  intros Hi. rewrite <- (take_drop_middle ls i (e :: es)) at 1 by done.
  rewrite insert_take_drop by (by eapply lookup_lt_Some).
  rewrite !concat_app. simpl. symmetry. apply Permutation_middle.
Qed.

Lemma conserves_step srcs a a' : conserves srcs a -> astep a a' -> conserves srcs a'.
Proof.
  unfold conserves. intros Hc Hstep.
  destruct Hstep as [gs w act tr i g e g' w' Hi Hg Hn|gs w act tr i g g' w' Hi Hg Hn];
    simpl in *.
  - apply anext_produced in Hn. subst g.
    rewrite <- Hc, events_app, list_fmap_insert. simpl.
    rewrite (concat_take_head (fst <$> gs) i e g'.1)
      by (by rewrite list_lookup_fmap, Hg).
    unfold events at 2. simpl. rewrite <- app_assoc. simpl. done.
  - apply anext_exhausted in Hn as [-> ->]. by rewrite list_insert_id.
Qed.

Lemma conserves_reachable srcs a :
  rtc astep (abs_init srcs ()) a -> conserves srcs a.
Proof.
  apply (reachable_ind (conserves srcs)).
  - unfold conserves. simpl. by rewrite events_fetches.
  - intros. by eapply conserves_step.
Qed.

(** Each step of the machine uses up one of the fetches a run needs. *)
Lemma sum_list_insert {A} (f : A -> nat) (l : list A) i x y :
  l !! i = Some x ->
  sum_list (f <$> <[i := y]> l) + f x = sum_list (f <$> l) + f y.
Proof.
  revert i. induction l as [|z l IH]; intros [|i] Hi; csimpl in *; try done.
  - inversion Hi; subst. lia.
  - specialize (IH i Hi). lia.
Qed.

Lemma remaining_step a a' : astep a a' -> S (remaining a') = remaining a.
Proof.
  intros Hstep. unfold remaining.
  destruct Hstep as [gs w act tr i g e g' w' Hi Hg Hn|gs w act tr i g g' w' Hi Hg Hn];
    simpl in *.
  - apply anext_produced in Hn. subst g.
    pose proof (sum_list_insert (fun g => length g.1) gs i _ g' Hg) as Hs.
    simpl in Hs. lia.
  - apply anext_exhausted in Hn as [-> ->]. rewrite list_insert_id by done.
    rewrite size_difference by (by apply singleton_subseteq_l).
    rewrite size_singleton.
    assert (size act <> 0); [|lia].
    intros H0. apply size_empty_inv in H0. apply leibniz_equiv in H0.
    subst act. by apply not_elem_of_empty in Hi.
Qed.

Lemma remaining_nsteps n a a' : nsteps astep n a a' -> remaining a' + n = remaining a.
Proof.
  induction 1 as [|n a1 a2 a3 Hstep _ IH]; [lia|].
  apply remaining_step in Hstep. lia.
Qed.

Lemma remaining_init srcs : remaining (abs_init srcs ()) = fetch_bound srcs.
Proof.
  unfold remaining, fetch_bound. simpl.
  rewrite size_list_to_set by apply NoDup_seq. rewrite length_seq.
  induction srcs as [|g l IH]; csimpl; [done|]. lia.
Qed.

Implicit Types (st : State (G:=ListGen E X) (W:=unit) (E:=E) (X:=X)).

Lemma pending_active st :
  pending_tasks st <> ∅ -> 0 < remaining (abs [] st).
Proof.
  intros Hne. apply set_choose_L in Hne as [t Ht].
  unfold remaining. simpl.
  assert (size (active_of [] st) <> 0); [|lia].
  intros H0. apply size_empty_inv in H0. apply leibniz_equiv in H0.
  assert (task_gen t ∈ active_of [] st) as Hin.
  { unfold active_of. apply elem_of_union_l, elem_of_map. eauto. }
  rewrite H0 in Hin. by apply not_elem_of_empty in Hin.
Qed.

(** A schedule with one element for each fetch the sources need is not used
    up before the run ends. *)
Lemma while_not_suspended sched : forall st,
  wf st -> remaining (abs [] st) <= length sched ->
  (while_pending sched st).2 <> Suspended.
Proof.
  induction sched as [|choice sched IH]; intros st Hwf Hlen; simpl;
    destruct (decide (pending_tasks st = ∅)) as [He|Hne]; try done.
  - apply pending_active in Hne. simpl in Hlen. lia.
  - destruct (wait_batch choice st Hwf Hne) as (Hwf0 & Hb0 & Habs & Hpos).
    destruct (for_done _ _) as [st1 [x|]] eqn:Hfor; [done|].
    destruct (for_done_refines _ _ _ _ Hwf0 Hb0 Hfor) as [Hwf1 Hp].
    rewrite Habs in Hp. apply remaining_nsteps in Hp.
    apply IH; [done|]. simpl in Hlen. lia.
Qed.

Lemma completed_all_inactive st :
  pending_tasks st = ∅ -> a_active (abs [] st) = ∅.
Proof.
  intros He. simpl. unfold active_of. rewrite He. simpl.
  by rewrite set_map_empty, union_empty_r_L.
Qed.

(** Sources that end by exhaustion never make the merger raise. *)
Lemma no_error_no_raise srcs sched st x :
  (forall i src, srcs !! i = Some src -> src.2 = Stop) ->
  _merge_agent_run srcs () sched <> (st, Raised x).
Proof.
  intros Hstop Hrun. destruct (run_refines _ _ _ _ _ Hrun) as [_ Hp].
  destruct Hp as (a1 & a2 & Hp & Hf & _).
  apply tracks_reachable in Hp as [Hlen Htr].
  destruct Hf as [gs w act tr i g y g' w' Hi Hg Hn].
  apply anext_failed in Hn. subst g. simpl in *.
  assert (is_Some (srcs !! i)) as [src Hsrc].
  { apply lookup_lt_is_Some. rewrite <- Hlen. by eapply lookup_lt_Some. }
  destruct (Htr i src Hsrc) as (g & Hg' & _ & Hact & _).
  simpl in *. rewrite Hg in Hg'. inversion Hg'; subst g.
  specialize (Hact Hi). rewrite (Hstop i src Hsrc) in Hact. done.
Qed.

Lemma concat_all_nil (ls : list (list E)) :
  (forall i l, ls !! i = Some l -> l = []) -> concat ls = [].
Proof.
  induction ls as [|l ls IH]; intros Hall; simpl; [done|].
  rewrite (Hall 0 l eq_refl). simpl. apply IH.
  intros i l' Hi. apply (Hall (S i) l' Hi).
Qed.

(** C2.  For sources that each produce a finite sequence of Events and end
    without error, under every schedule the run of the merger ends, the
    Events it has yielded from each source are the Events of that source in
    their order, and the merged sequence is a permutation of all the Events
    of all the sources. *)
Theorem merge_union_in_order (evs : list (list E)) sched :
  let srcs : list (ListGen E X) := (fun l => (l, Stop)) <$> evs in
  fetch_bound srcs <= length sched ->
  exists st, _merge_agent_run srcs () sched = (st, Completed) /\
    (forall i l, evs !! i = Some l -> yielded_from i (trace st) = l) /\
    events (trace st) ≡ₚ concat evs.
Proof.
  intros srcs Hlen.
  assert (Hstop : forall i src, srcs !! i = Some src -> src.2 = Stop).
  { intros i src Hi. apply list_lookup_fmap_Some in Hi as (l & -> & _). done. }
  destruct (_merge_agent_run srcs () sched) as [st o] eqn:Hrun.
  pose proof (while_not_suspended sched (init srcs ()) (init_wf _ _)) as Hns.
  rewrite abs_of_init, remaining_init in Hns. specialize (Hns Hlen).
  unfold _merge_agent_run in Hrun. rewrite Hrun in Hns. simpl in Hns.
  destruct o as [|x|]; [|by apply no_error_no_raise in Hrun|done].
  exists st. split; [done|].
  destruct (run_refines _ _ _ _ _ Hrun) as [_ [Hp Hemp]].
  pose proof (tracks_reachable _ _ Hp) as [Hl Htr].
  pose proof (conserves_reachable _ _ Hp) as Hc.
  apply completed_all_inactive in Hemp.
  assert (Hdone : forall i src, srcs !! i = Some src ->
            agent_runs st !! i = Some ([], Stop) /\
            yielded_from i (trace st) = src.1).
  { intros i src Hi. destruct (Htr i src Hi) as (g & Hg & Hy & _ & Hin).
    simpl in *. destruct Hin as [-> _].
    { rewrite Hemp. apply not_elem_of_empty. }
    split; [done|]. by rewrite app_nil_r in Hy. }
  split.
  - intros i l Hi. destruct (Hdone i (l, Stop)) as [_ Hy]; [|done].
    subst srcs. by rewrite list_lookup_fmap, Hi.
  - unfold conserves in Hc. simpl in Hc. rewrite concat_all_nil in Hc.
    + rewrite app_nil_r in Hc. rewrite Hc. subst srcs.
      rewrite <- list_fmap_compose. by rewrite list_fmap_id.
    + intros i l Hi. apply list_lookup_fmap_Some in Hi as (g & -> & Hg).
      assert (is_Some (srcs !! i)) as [src Hsrc].
      { apply lookup_lt_is_Some. simpl in Hl. rewrite <- Hl. by eapply lookup_lt_Some. }
      destruct (Hdone i src Hsrc) as [Hg' _]. rewrite Hg in Hg'. by inversion Hg'.
Qed.
End sequences.

Section abort.
Context {G W E X : Type} `{!AsyncGenerator G W E X}.
Implicit Types (st : State (G:=G) (W:=W) (E:=E) (X:=X)).
Implicit Types (a : Active (G:=G) (W:=W) (E:=E) (X:=X)).

Lemma astep_trace a a' :
  astep a a' -> exists more, a_trace a' = a_trace a ++ more /\ Forall going_on more.
Proof.
  intros [gs w act tr i g e g' w' _ _ _|gs w act tr i g g' w' _ _ _]; simpl.
  - eexists. split; [done|]. by repeat constructor.
  - exists []. split; [by rewrite app_nil_r|constructor].
Qed.

Lemma rtc_trace a a' :
  rtc astep a a' -> exists more, a_trace a' = a_trace a ++ more /\ Forall going_on more.
Proof.
  induction 1 as [a|a1 a2 a3 Hstep _ (m2 & E2 & F2)].
  - exists []. split; [by rewrite app_nil_r|constructor].
  - apply astep_trace in Hstep as (m1 & E1 & F1). exists (m1 ++ m2).
    split; [by rewrite E2, E1, app_assoc|by apply Forall_app].
Qed.

Lemma reachable_going_on (runs : list G) (w : W) a :
  rtc astep (abs_init runs w) a -> Forall going_on (a_trace a).
Proof.
  intros Hr. apply rtc_trace in Hr as (more & -> & Hm). simpl.
  apply Forall_app. split; [|done]. apply Forall_fmap, Forall_forall. done.
Qed.

Lemma going_on_cancels (tr : list (Action E X)) : Forall going_on tr -> cancels tr = [].
Proof.
  induction 1 as [|x tr Hx _ IH]; [done|]. unfold cancels in *. simpl.
  by destruct x.
Qed.

Lemma while_trace_grows sched st st' o :
  wf st -> while_pending sched st = (st', o) -> trace st `prefix_of` trace st'.
Proof.
  intros Hwf Hrun. destruct (while_refines _ _ _ _ Hwf Hrun) as [_ Hp].
  destruct o as [|x|].
  - destruct Hp as [Hp _]. apply rtc_trace in Hp as (m & Hm & _).
    simpl in Hm. rewrite Hm. by apply prefix_app_r.
  - destruct Hp as (a1 & a2 & Hp & Hf & _ & _ & <- & _).
    apply rtc_trace in Hp as (m & Hm & _). destruct Hf. simpl in *.
    rewrite Hm, <- app_assoc. by apply prefix_app_r.
  - apply rtc_trace in Hp as (m & Hm & _).
    simpl in Hm. rewrite Hm. by apply prefix_app_r.
Qed.

Lemma while_app_suspended s1 s2 : forall st st',
  while_pending s1 st = (st', Suspended) ->
  while_pending (s1 ++ s2) st = while_pending s2 st'.
Proof.
  induction s1 as [|c s1 IH]; intros st st' Hrun; simpl in *.
  - destruct (decide (pending_tasks st = ∅)); [done|]. by inversion Hrun.
  - destruct (decide (pending_tasks st = ∅)); [done|].
    destruct (for_done _ _) as [st1 [x|]]; [done|]. by apply IH.
Qed.

Lemma while_app_final s1 s2 : forall st st' o,
  while_pending s1 st = (st', o) -> o <> Suspended ->
  while_pending (s1 ++ s2) st = (st', o).
Proof.
  induction s1 as [|c s1 IH]; intros st st' o Hrun Ho; simpl in *.
  - destruct (decide (pending_tasks st = ∅)) as [He|]; [|by inversion Hrun; subst].
    inversion Hrun; subst. destruct s2; simpl; by rewrite decide_True.
  - destruct (decide (pending_tasks st = ∅)); [done|].
    destruct (for_done _ _) as [st1 [x|]]; [done|]. by apply IH.
Qed.

Lemma yielded_prefix (tr tr' : list (Action E X)) :
  tr `prefix_of` tr' -> yielded tr `prefix_of` yielded tr'.
Proof. intros [k ->]. unfold yielded. rewrite omap_app. by apply prefix_app_r. Qed.

(** Events yielded are not taken back: a longer schedule only adds to what
    a shorter one has yielded. *)
Lemma run_monotone (runs : list G) (w : W) s1 s2 :
  trace (_merge_agent_run runs w s1).1 `prefix_of`
  trace (_merge_agent_run runs w (s1 ++ s2)).1.
Proof.
  unfold _merge_agent_run.
  destruct (while_pending s1 (init runs w)) as [st1 o1] eqn:H1.
  assert (o1 = Suspended \/ o1 <> Suspended) as [->|Hne]
    by (destruct o1; auto).
  - rewrite (while_app_suspended _ s2 _ _ H1). simpl.
    destruct (while_pending s2 st1) as [st2 o2] eqn:H2. simpl.
    eapply while_trace_grows; [|done].
    by destruct (while_refines _ _ _ _ (init_wf runs w) H1).
  - by rewrite (while_app_final _ s2 _ _ _ H1 Hne).
Qed.
(** The [for] loop over [done] takes no task out of [pending_tasks]. *)
Lemma find_and_move_on_pending t st :
  pending_tasks st ⊆ pending_tasks (find_and_move_on t st).
Proof.
  unfold find_and_move_on. destruct (list_find _ _) as [[i u]|]; [|done].
  simpl. apply union_subseteq_r.
Qed.

(** A [for] loop that an exception leaves: the tasks of [done] read before,
    the task whose result raised, and the tasks of [done] that are left
    unread. *)
Lemma for_done_raised done : forall st st' x,
  wf st -> batch_ok done st -> for_done done st = (st', Some x) ->
  exists read t rest stk st1,
    done = read ++ t :: rest /\ wf stk /\ batch_ok (t :: rest) stk /\
    rtc astep (abs done st) (abs (t :: rest) stk) /\
    result t stk = (Failed x, st1) /\ st' = emit (Raise x) st1 /\
    pending_tasks st ⊆ pending_tasks stk.
Proof.
  induction done as [|t rest IH]; intros st st' x Hwf Hb Hrun; simpl in Hrun;
    [done|].
  destruct (result t st) as [[e| |y] st1] eqn:Hr.
  - destruct (produced_step _ _ _ _ _ Hwf Hb Hr) as (Hwf2 & Hb2 & Hstep).
    destruct (IH _ _ _ Hwf2 Hb2 Hrun)
      as (read & t' & rest' & stk & st1' & -> & ? & ? & Hrtc & ? & ? & Hsub).
    exists (t :: read), t', rest', stk, st1'.
    split; [done|]. split; [done|]. split; [done|].
    split; [by eapply rtc_l|]. split; [done|]. split; [done|].
    etrans; [|exact Hsub]. etrans; [|apply find_and_move_on_pending].
    simpl. by destruct (result_spec _ _ _ _ Hr) as (_ & -> & _).
  - destruct (exhausted_step _ _ _ _ Hwf Hb Hr) as (Hwf2 & Hb2 & Hstep).
    destruct (IH _ _ _ Hwf2 Hb2 Hrun)
      as (read & t' & rest' & stk & st1' & -> & ? & ? & Hrtc & ? & ? & Hsub).
    exists (t :: read), t', rest', stk, st1'.
    split; [done|]. split; [done|]. split; [done|].
    split; [by eapply rtc_l|]. split; [done|]. split; [done|].
    etrans; [|exact Hsub].
    by destruct (result_spec _ _ _ _ Hr) as (_ & -> & _).
  - inversion Hrun; subst. exists [], t, rest, st, st1.
    split; [done|]. split; [done|]. split; [done|]. split; [done|].
    split; [done|]. split; done.
Qed.

(** A run that an exception leaves: the schedule up to the batch in which
    it was raised, and the [for] loop over that batch. *)
Lemma while_raised sched : forall st st' x,
  wf st -> while_pending sched st = (st', Raised x) ->
  exists s1 choice s2 st1,
    sched = s1 ++ choice :: s2 /\
    while_pending s1 st = (st1, Suspended) /\
    wf st1 /\ pending_tasks st1 <> ∅ /\
    rtc astep (abs [] st) (abs [] st1) /\
    for_done (wait choice st1)
      (with_pending (pending_tasks st1 ∖ list_to_set (wait choice st1)) st1)
    = (st', Some x).
Proof.
  induction sched as [|choice sched IH]; intros st st' x Hwf Hrun;
    simpl in Hrun; destruct (decide (pending_tasks st = ∅)) as [He|Hne];
    try done.
  destruct (wait_batch choice st Hwf Hne) as (Hwf0 & Hb0 & Habs & _).
  destruct (for_done _ _) as [st1 [y|]] eqn:Hfor.
  - inversion Hrun; subst. exists [], choice, sched, st.
    split; [done|]. split; [by simpl; rewrite decide_False|].
    split; [done|]. split; [done|]. split; [done|]. done.
  - destruct (for_done_refines _ _ _ _ Hwf0 Hb0 Hfor) as [Hwf1 Hp].
    rewrite Habs in Hp. apply rtc_nsteps_2 in Hp.
    destruct (IH _ _ _ Hwf1 Hrun) as (s1 & c & s2 & st2 & -> & H1 & ? & ? & Hr & ?).
    exists (choice :: s1), c, s2, st2. split; [done|]. split.
    { simpl. rewrite decide_False by done. by rewrite Hfor. }
    split; [done|]. split; [done|]. split; [by etrans|done].
Qed.
End abort.

Section abort_sequences.
Context {E X : Type}.
Implicit Types (srcs : list (ListGen E X)).

(** When a source ends with an error, a run carried on to its end does
    not complete: an exception escapes. *)
Lemma failing_source_raises srcs sched j evs x :
  srcs !! j = Some (evs, Error x) ->
  fetch_bound srcs <= length sched ->
  exists st y, _merge_agent_run srcs () sched = (st, Raised y).
Proof.
  intros Hj Hlen.
  destruct (_merge_agent_run srcs () sched) as [st o] eqn:Hrun.
  pose proof (while_not_suspended sched (init srcs ()) (init_wf _ _)) as Hns.
  rewrite abs_of_init, remaining_init in Hns. specialize (Hns Hlen).
  unfold _merge_agent_run in Hrun. rewrite Hrun in Hns. simpl in Hns.
  destruct o as [|y|]; [|by eauto|done].
  destruct (run_refines _ _ _ _ _ Hrun) as [_ [Hp Hemp]].
  apply tracks_reachable in Hp as [_ Ht].
  destruct (Ht j _ Hj) as (g & _ & _ & _ & Hin).
  destruct Hin as [_ Hstop]; [|done].
  rewrite (completed_all_inactive _ Hemp). apply not_elem_of_empty.
Qed.

(** The batch in which an exception was raised: the task whose result
    raised it fetched from a source that ends with this error and has
    yielded all its Events; the tasks that were not in the batch are still
    pending; the tasks of the batch that come after are left as they were,
    not pending and still the latest of their source. *)
Lemma raised_batch srcs sched st x :
  _merge_agent_run srcs () sched = (st, Raised x) ->
  exists s1 choice s2 st1 read t rest,
    sched = s1 ++ choice :: s2 /\
    _merge_agent_run srcs () s1 = (st1, Suspended) /\
    wait choice st1 = read ++ t :: rest /\
    srcs !! task_gen t = Some (yielded_from (task_gen t) (trace st), Error x) /\
    (forall u, u ∈ pending_tasks st1 -> u ∉ wait choice st1 ->
       u ∈ pending_tasks st) /\
    (forall u, u ∈ rest ->
       (u ∉ pending_tasks st) /\ tasks st !! task_gen u = Some u).
Proof.
  intros Hrun. unfold _merge_agent_run in Hrun.
  destruct (while_raised _ _ _ _ (init_wf srcs ()) Hrun)
    as (s1 & choice & s2 & st1 & -> & H1 & Hwf1 & Hne & Hr1 & Hfor).
  destruct (wait_batch choice st1 Hwf1 Hne) as (Hwf0 & Hb0 & Habs & _).
  destruct (for_done_raised _ _ _ _ Hwf0 Hb0 Hfor)
    as (read & t & rest & stk & st2 & Hd & Hwfk & Hbk & Hrk & Hres & -> & Hsub).
  exists s1, choice, s2, st1, read, t, rest.
  destruct (result_spec _ _ _ _ Hres) as (Et & Ep & _ & Etr & _ & Hg).
  split; [done|]. split; [done|]. split; [done|]. split; [|split].
  - rewrite Habs in Hrk. rewrite abs_of_init in Hr1.
    assert (Hreach : rtc astep (abs_init srcs ()) (abs (t :: rest) stk))
      by (by etrans).
    destruct (tracks_reachable _ _ Hreach) as [Hlen Htr]. simpl in Hlen.
    assert (Hlt : task_gen t < length (agent_runs stk)).
    { rewrite <- (wf_len _ Hwfk). eapply lookup_lt_Some.
      apply (batch_tasks _ _ Hbk). left. }
    destruct (lookup_lt_is_Some_2 _ _ Hlt) as [g Hgl].
    destruct (Hg g Hgl) as (g' & w' & Ha & _). apply anext_failed in Ha. subst g.
    assert (is_Some (srcs !! task_gen t)) as [[evs e] Hsrc].
    { apply lookup_lt_is_Some. by rewrite <- Hlen. }
    destruct (Htr _ _ Hsrc) as (g & Hg' & Hy & Hact & _). simpl in *.
    rewrite Hgl in Hg'. inversion Hg'; subst g. simpl in *.
    rewrite app_nil_r in Hy.
    rewrite Hact by (rewrite active_of_cons; apply elem_of_union_l;
                     by apply elem_of_singleton).
    rewrite Etr, yielded_from_app. simpl. by rewrite app_nil_r, Hy.
  - intros u Hu Hnin. simpl. rewrite Ep. apply Hsub. simpl.
    apply elem_of_difference. split; [done|]. by rewrite elem_of_list_to_set.
  - intros u Hu. simpl. rewrite Ep, Et. split.
    + apply (batch_apart _ _ Hbk). by right.
    + apply (batch_tasks _ _ Hbk). by right.
Qed.

(** C3, as amended.  When a source ends with an error other than
    exhaustion, every run carried on to its end lets an exception escape to
    the consumer.  In every run that an exception escapes, it is the error
    of a source, raised after the Events of that source; it is the last
    thing the merger does (a longer schedule changes nothing); the Events
    yielded before it stay yielded; and the merger cancels no task: the
    tasks that had not completed are left pending, and those that had
    completed in the same batch and had not been read yet are left
    unread. *)
Theorem merge_error_aborts srcs :
  (forall sched j evs x,
     srcs !! j = Some (evs, Error x) -> fetch_bound srcs <= length sched ->
     exists st y, _merge_agent_run srcs () sched = (st, Raised y)) /\
  (forall sched st x,
     _merge_agent_run srcs () sched = (st, Raised x) ->
     (exists tr0, trace st = tr0 ++ [Raise x] /\ Forall going_on tr0) /\
     (forall more, _merge_agent_run srcs () (sched ++ more) = (st, Raised x)) /\
     (forall s1 s2, sched = s1 ++ s2 ->
        yielded (trace (_merge_agent_run srcs () s1).1) `prefix_of`
        yielded (trace st)) /\
     cancels (trace st) = [] /\
     exists s1 choice s2 st1 read t rest,
       sched = s1 ++ choice :: s2 /\
       _merge_agent_run srcs () s1 = (st1, Suspended) /\
       wait choice st1 = read ++ t :: rest /\
       srcs !! task_gen t
       = Some (yielded_from (task_gen t) (trace st), Error x) /\
       (forall u, u ∈ pending_tasks st1 -> u ∉ wait choice st1 ->
          u ∈ pending_tasks st) /\
       (forall u, u ∈ rest ->
          (u ∉ pending_tasks st) /\ tasks st !! task_gen u = Some u)).
Proof.
  split; [apply failing_source_raises|].
  intros sched st x Hrun.
  destruct (run_refines _ _ _ _ _ Hrun) as [_ (a1 & a2 & Hr & Hf & _ & _ & Htr & _)].
  pose proof (reachable_going_on _ _ _ Hr) as Hgo.
  assert (trace st = a_trace a1 ++ [Raise x]) as Etr.
  { rewrite <- Htr. by destruct Hf. }
  split; [eauto|]. split; [|split; [|split]].
  - intros more. by apply while_app_final.
  - intros s1 s2 ->. apply yielded_prefix.
    pose proof (run_monotone srcs () s1 s2) as Hm. by rewrite Hrun in Hm.
  - rewrite Etr. unfold cancels. rewrite omap_app. simpl. rewrite app_nil_r.
    by apply going_on_cancels.
  - by apply raised_batch.
Qed.

(** X18.  Whatever the schedule and however the sources end, what has been
    yielded of a source is a beginning of its sequence: the Events of one
    source are never reordered, skipped or repeated. *)
Lemma merge_yields_in_order srcs sched i src :
  srcs !! i = Some src ->
  yielded_from i (trace (_merge_agent_run srcs () sched).1) `prefix_of` src.1.
Proof.
  intros Hi. destruct (_merge_agent_run srcs () sched) as [st o] eqn:Hrun.
  destruct (run_refines _ _ _ _ _ Hrun) as [_ Hp]. simpl.
  assert (exists a, tracks srcs a /\
            yielded_from i (trace st) = yielded_from i (a_trace a))
    as (a & [_ Ht] & ->).
  { destruct o as [|x|].
    - destruct Hp as [Hp _]. exists (abs [] st). split; [|done].
      by apply tracks_reachable.
    - destruct Hp as (a1 & a2 & Hr & Hf & _ & _ & <- & _). exists a1.
      split; [by apply tracks_reachable|]. destruct Hf. simpl.
      rewrite yielded_from_app. simpl. by rewrite app_nil_r.
    - exists (abs [] st). split; [|done]. by apply tracks_reachable. }
  destruct (Ht i src Hi) as (g & _ & <- & _). by apply prefix_app_r.
Qed.

(** X19.  When a source ends with an error, a schedule with one element
    for each fetch the sources need brings an error to the consumer: the
    merger does not swallow the error of a source. *)
Lemma merge_error_reaches_consumer srcs sched j evs x :
  srcs !! j = Some (evs, Error x) ->
  fetch_bound srcs <= length sched ->
  exists st y, _merge_agent_run srcs () sched = (st, Raised y).
Proof.
  intros Hj Hlen.
  destruct (_merge_agent_run srcs () sched) as [st o] eqn:Hrun.
  pose proof (while_not_suspended sched (init srcs ()) (init_wf _ _)) as Hns.
  rewrite abs_of_init, remaining_init in Hns. specialize (Hns Hlen).
  unfold _merge_agent_run in Hrun. rewrite Hrun in Hns. simpl in Hns.
  destruct o as [|y|]; [|by eauto|done].
  destruct (run_refines _ _ _ _ _ Hrun) as [_ [Hp Hemp]].
  apply tracks_reachable in Hp as [_ Ht].
  destruct (Ht j _ Hj) as (g & _ & _ & _ & Hin).
  destruct Hin as [_ Hstop]; [|done].
  rewrite (completed_all_inactive _ Hemp). apply not_elem_of_empty.
Qed.
End abort_sequences.

(** C3, as stated, fails: when the first of two sources fails at once, the
    task that fetches from the second one is still pending after the error
    has escaped, and it has not been cancelled. *)
Lemma merge_error_cancels_nothing :
  let '(st, o) := _merge_agent_run
                    [([], Error "boom"); (["e1"; "e2"], Stop)] () [[0]] in
  o = Raised "boom" /\
  trace st = [Fetch 0; Fetch 1; Raise "boom"] /\
  elements (pending_tasks st) = [(1, 1)] /\
  ~ (forall t, t ∈ elements (pending_tasks st) -> t ∈ cancels (trace st)).
Proof.
  vm_compute. split; [reflexivity|]. split; [reflexivity|]. split; [reflexivity|].
  intros H. specialize (H (1, 1) ltac:(left)). inversion H.
Qed.

Lemma merge_backpressure_witness :
  let tr := trace (_merge_agent_run [(["a"], Stop (X:=string))] ()
                     [[0]; [0]]).1 in
  [Fetch 0; Yield 0 "a"] ++ [Fetch 0] `prefix_of` tr /\
  fetches 0 [Fetch (E:=string) (X:=string) 0; Yield 0 "a"]
  = yields 0 [Fetch (E:=string) (X:=string) 0; Yield 0 "a"].
Proof.
  intros tr.
  assert (Hp : [Fetch 0; Yield 0 "a"] ++ [Fetch 0] `prefix_of` tr)
    by (exists []; vm_compute; reflexivity).
  split; [exact Hp|].
  exact (proj1 (merge_backpressure [(["a"], Stop)] () [[0]; [0]]) _ _ Hp).
Defined.

Lemma merge_union_in_order_witness :
  let evs := [["a1"; "a2"]; ["b1"]] in
  let sched := [[1; 0]; [0]; [0; 1]; [0]; [1]] in
  fetch_bound ((fun l => (l, Stop (X:=string))) <$> evs) <= length sched /\
  exists st,
    _merge_agent_run ((fun l => (l, Stop (X:=string))) <$> evs) () sched
    = (st, Completed) /\
    (forall i l, evs !! i = Some l -> yielded_from i (trace st) = l) /\
    events (trace st) ≡ₚ concat evs.
Proof.
  intros evs sched.
  assert (H : fetch_bound ((fun l => (l, Stop (X:=string))) <$> evs)
              <= length sched) by (vm_compute; lia).
  split; [exact H|]. exact (merge_union_in_order evs sched H).
Defined.

Lemma merge_error_aborts_witness :
  let srcs := [([], Error "boom"); (["e1"; "e2"], Stop)] in
  let r := _merge_agent_run srcs () [[0; 1]] in
  r = (r.1, Raised "boom") /\
  cancels (trace r.1) = [] /\
  _merge_agent_run srcs () ([[0; 1]] ++ [[1]]) = (r.1, Raised "boom").
Proof.
  intros srcs r.
  assert (Hr : r = (r.1, Raised "boom")) by (vm_compute; reflexivity).
  split; [exact Hr|].
  destruct (proj2 (merge_error_aborts srcs) [[0; 1]] r.1 "boom" Hr)
    as (_ & Hmore & _ & Hc & _).
  split; [exact Hc|exact (Hmore [[1]])].
Defined.

(** *** Every run, whatever the generators *)

Section runs.
Context {G W E X : Type} `{!AsyncGenerator G W E X}.
Implicit Types (st : State (G:=G) (W:=W) (E:=E) (X:=X)).
Implicit Types (a : Active (G:=G) (W:=W) (E:=E) (X:=X)).

(** Where a run stops, in the machine over active sources: at a state the
    machine reaches, or one failure after such a state. *)
Lemma run_reached (runs : list G) (w : W) sched st o :
  _merge_agent_run runs w sched = (st, o) ->
  exists a1, rtc astep (abs_init runs w) a1 /\
    match o with
    | Raised x => exists a2, afail a1 x a2 /\ a_runs a2 = agent_runs st /\
                    a_trace a2 = trace st
    | _ => a1 = abs [] st
    end.
Proof.
  intros Hrun. destruct (run_refines _ _ _ _ _ Hrun) as [_ Hp].
  destruct o as [|x|].
  - destruct Hp as [Hp _]. eauto.
  - destruct Hp as (a1 & a2 & Hp & Hf & Hr & _ & Ht & _). eauto 10.
  - eauto.
Qed.

Lemma reachable_length (runs : list G) (w : W) a :
  rtc astep (abs_init runs w) a -> length (a_runs a) = length runs.
Proof.
  apply (reachable_ind (fun a => length (a_runs a) = length runs)); [done|].
  intros a1 a2 IH Hstep. destruct Hstep; simpl in *; by rewrite length_insert.
Qed.

Lemma going_on_last (tr : list (Action E X)) x :
  Forall going_on tr -> last tr <> Some (Raise x).
Proof.
  intros Hgo Hl. apply last_Some in Hl as [tr0 ->].
  apply Forall_app in Hgo as [_ Hgo]. by inversion Hgo.
Qed.

(** A schedule as long as a measure that every step of the machine
    decreases by one is not used up before the run ends. *)
Lemma while_ends (m : Active (G:=G) (W:=W) (E:=E) (X:=X) -> nat) :
  (forall a a', astep a a' -> S (m a') = m a) ->
  (forall a, a_active a <> ∅ -> 0 < m a) ->
  forall sched st, wf st -> m (abs [] st) <= length sched ->
    (while_pending sched st).2 <> Suspended.
Proof.
  intros Hstep Hpos.
  assert (Hn : forall n a a', nsteps astep n a a' -> m a' + n = m a).
  { induction 1 as [|n a1 a2 a3 Hs _ IH]; [lia|]. apply Hstep in Hs. lia. }
  induction sched as [|choice sched IH]; intros st Hwf Hlen; simpl;
    destruct (decide (pending_tasks st = ∅)) as [He|Hne]; try done.
  - assert (0 < m (abs [] st)); [|simpl in Hlen; lia].
    apply Hpos. simpl. apply set_choose_L in Hne as [t Ht]. intros H0.
    assert (task_gen t ∈ active_of [] st) as Hin.
    { unfold active_of. apply elem_of_union_l, elem_of_map. eauto. }
    rewrite H0 in Hin. by apply not_elem_of_empty in Hin.
  - destruct (wait_batch choice st Hwf Hne) as (Hwf0 & Hb0 & Habs & Hpos0).
    destruct (for_done _ _) as [st1 [x|]] eqn:Hfor; [done|].
    destruct (for_done_refines _ _ _ _ Hwf0 Hb0 Hfor) as [Hwf1 Hp].
    rewrite Habs in Hp. apply Hn in Hp.
    apply IH; [done|]. simpl in Hlen. lia.
Qed.

(** Wherever a run stops, each generator has been fetched once more than
    it has been yielded. *)
Lemma run_balanced (runs : list G) (w : W) sched i :
  i < length runs ->
  let tr := trace (_merge_agent_run runs w sched).1 in
  fetches i tr = S (yields i tr).
Proof.
  intros Hi tr. subst tr.
  destruct (_merge_agent_run runs w sched) as [st o] eqn:Hrun. simpl.
  destruct (run_reached _ _ _ _ _ Hrun) as (a1 & Hr & Ho).
  destruct (reachable_backpressure _ _ _ Hr) as [_ Hb].
  rewrite (reachable_length _ _ _ Hr) in Hb. specialize (Hb i).
  rewrite decide_True in Hb by done.
  destruct o as [|y|]; try (subst a1; simpl in Hb; lia).
  destruct Ho as (a2 & Hf & _ & <-). destruct Hf. simpl in *.
  rewrite fetches_snoc, yields_snoc. simpl. lia.
Qed.

(** X8.  An exception ends the run of the merger, whatever the generators
    and the schedule: a run lets an exception escape exactly when the last
    thing it did was to raise it, everything before was a fetch or a yield,
    and no task is ever cancelled. *)
Theorem merge_raise_is_last (runs : list G) (w : W) sched x :
  let r := _merge_agent_run runs w sched in
  (r.2 = Raised x <-> last (trace r.1) = Some (Raise x)) /\
  Forall going_on (match r.2 with
                   | Raised _ => removelast (trace r.1)
                   | _ => trace r.1
                   end) /\
  cancels (trace r.1) = [].
Proof.
  intros r. subst r.
  destruct (_merge_agent_run runs w sched) as [st o] eqn:Hrun. simpl.
  destruct (run_reached _ _ _ _ _ Hrun) as (a1 & Hr & Ho).
  pose proof (reachable_going_on _ _ _ Hr) as Hgo.
  destruct o as [|y|].
  - subst a1. simpl in Hgo. split; [|split].
    + split; [done|]. intros Hl. by apply going_on_last in Hl.
    + done.
    + by apply going_on_cancels.
  - destruct Ho as (a2 & Hf & _ & <-). destruct Hf. simpl in *.
    rewrite last_snoc, List.removelast_last. split; [|split].
    + split; intros; congruence.
    + done.
    + unfold cancels. rewrite omap_app. simpl. rewrite app_nil_r.
      by apply going_on_cancels.
  - subst a1. simpl in Hgo. split; [|split].
    + split; [done|]. intros Hl. by apply going_on_last in Hl.
    + done.
    + by apply going_on_cancels.
Qed.

(** X9.  The bookkeeping of [_merge_agent_run], wherever a run stops:
    [tasks] has one task for each generator, the task at position [i]
    fetches from generator [i], every pending task is the task [tasks] holds
    for its generator, and so no two pending tasks fetch from the same
    generator. *)
Theorem merge_one_task_per_source (runs : list G) (w : W) sched :
  let st := (_merge_agent_run runs w sched).1 in
  length (tasks st) = length runs /\
  (forall i t, tasks st !! i = Some t -> task_gen t = i) /\
  (forall t, t ∈ pending_tasks st -> tasks st !! task_gen t = Some t) /\
  (forall t u, t ∈ pending_tasks st -> u ∈ pending_tasks st ->
     task_gen t = task_gen u -> t = u).
Proof.
  intros st. subst st.
  destruct (_merge_agent_run runs w sched) as [st o] eqn:Hrun. simpl.
  destruct (run_refines _ _ _ _ _ Hrun) as [Hwf _].
  destruct (run_reached _ _ _ _ _ Hrun) as (a1 & Hr & Ho).
  pose proof (reachable_length _ _ _ Hr) as Hlen.
  split; [|split; [|split]].
  - rewrite (wf_len _ Hwf). destruct o as [|y|].
    + by subst a1.
    + destruct Ho as (a2 & Hf & <- & _). destruct Hf. simpl in *.
      by rewrite length_insert.
    + by subst a1.
  - intros i t Ht. by destruct (wf_tasks _ Hwf i t Ht).
  - apply (wf_pending _ Hwf).
  - intros t u Ht Hu Heq. eapply latest_unique.
    + by apply (wf_pending _ Hwf).
    + by apply (wf_pending _ Hwf).
    + done.
Qed.

End runs.

(** *** Every run over sources that are sequences, however they end *)

Section runs_of_sequences.
Context {E X : Type}.
Implicit Types (srcs : list (ListGen E X)).
Implicit Types (a : Active (G:=ListGen E X) (W:=unit) (E:=E) (X:=X)).

Lemma afail_sequences a1 a2 (x : X) :
  afail a1 x a2 ->
  a_trace a2 = a_trace a1 ++ [Raise x] /\
  fst <$> a_runs a2 = fst <$> a_runs a1 /\
  exists i, i ∈ a_active a1 /\ a_runs a1 !! i = Some ([], Error x).
Proof.
  intros [gs w act tr i g y g' w' Hi Hg Hn]. simpl.
  pose proof Hn as Hn'. apply anext_failed in Hn'. subst g.
  unfold anext in Hn. simpl in Hn. inversion Hn; subst.
  split; [done|]. split; [|by eauto].
  rewrite list_fmap_insert. simpl.
  apply list_insert_id. by rewrite list_lookup_fmap, Hg.
Qed.

(** X11.  However the sources end and wherever a run stops, the merger
    yields no Event that the sources do not hold and none more often than
    they hold it: the Events yielded are, up to their order, among the
    Events of the sources.  When the run has completed they are all the
    Events of the sources. *)
Theorem merge_conserves_events srcs sched :
  let r := _merge_agent_run srcs () sched in
  events (trace r.1) ⊆+ concat (fst <$> srcs) /\
  (r.2 = Completed -> events (trace r.1) ≡ₚ concat (fst <$> srcs)).
Proof.
  intros r. subst r.
  destruct (_merge_agent_run srcs () sched) as [st o] eqn:Hrun. simpl.
  destruct (run_reached _ _ _ _ _ Hrun) as (a1 & Hr & Ho).
  pose proof (conserves_reachable _ _ Hr) as Hc. unfold conserves in Hc.
  assert (He : events (trace st) = events (a_trace a1)).
  { destruct o as [|y|]; try (by subst a1).
    destruct Ho as (a2 & Hf & _ & <-).
    apply afail_sequences in Hf as (-> & _).
    rewrite events_app. simpl. by rewrite app_nil_r. }
  rewrite He. split.
  - rewrite <- Hc. by apply submseteq_inserts_r.
  - intros ->. subst a1. simpl in *.
    destruct (run_refines _ _ _ _ _ Hrun) as [_ [Hp Hemp]].
    destruct (tracks_reachable _ _ Hp) as [_ Htr].
    rewrite concat_all_nil in Hc; [by rewrite app_nil_r in Hc|].
    intros i l Hi. apply list_lookup_fmap_Some in Hi as (g & -> & Hg).
    assert (is_Some (srcs !! i)) as [src Hsrc].
    { apply lookup_lt_is_Some.
      rewrite <- (reachable_length _ _ _ Hp). by eapply lookup_lt_Some. }
    destruct (Htr i src Hsrc) as (g' & Hg' & _ & _ & Hin).
    simpl in Hg'. rewrite Hg in Hg'. inversion Hg'; subst g'.
    destruct Hin as [-> _]; [|done].
    rewrite (completed_all_inactive _ Hemp). apply not_elem_of_empty.
Qed.


(** X13.  The merger completes only when every source has been read to its
    end: after a run that completed, every source ended by exhaustion and
    all its Events have been yielded. *)
Theorem merge_completed_all_read srcs sched st i src :
  _merge_agent_run srcs () sched = (st, Completed) ->
  srcs !! i = Some src ->
  src.2 = Stop /\ yielded_from i (trace st) = src.1.
Proof.
  intros Hrun Hi. destruct (run_refines _ _ _ _ _ Hrun) as [_ [Hr Hemp]].
  destruct (tracks_reachable _ _ Hr) as [_ Ht].
  destruct (Ht i src Hi) as (g & _ & Hy & _ & Hin).
  destruct Hin as [-> Hstop].
  { rewrite (completed_all_inactive _ Hemp). apply not_elem_of_empty. }
  split; [done|]. simpl in Hy. by rewrite app_nil_r in Hy.
Qed.

(** X14.  An exception that escapes the merger is the error of one of the
    sources, and it escapes after all the Events of that source have been
    yielded. *)
Theorem merge_raised_is_source_error srcs sched st x :
  _merge_agent_run srcs () sched = (st, Raised x) ->
  exists j, srcs !! j = Some (yielded_from j (trace st), Error x).
Proof.
  intros Hrun. destruct (run_reached _ _ _ _ _ Hrun) as (a1 & Hr & Ho).
  destruct Ho as (a2 & Hf & _ & <-).
  apply afail_sequences in Hf as (-> & _ & j & Hact & Hg).
  destruct (tracks_reachable _ _ Hr) as [Hlen Ht]. exists j.
  assert (is_Some (srcs !! j)) as [[evs t] Hsrc].
  { apply lookup_lt_is_Some. rewrite <- Hlen. by eapply lookup_lt_Some. }
  destruct (Ht j _ Hsrc) as (g & Hg' & Hy & Ha & _).
  rewrite Hg in Hg'. inversion Hg'; subst g. simpl in *.
  specialize (Ha Hact). subst t.
  rewrite yielded_from_app. simpl. rewrite !app_nil_r in *. by subst evs.
Qed.
End runs_of_sequences.

(** *** No fairness *)

Section starvation.
Context {E X : Type}.
Implicit Types (srcs : list (ListGen E X)).
Implicit Types (st : State (G:=ListGen E X) (W:=unit) (E:=E) (X:=X)).

Lemma wait_one st i tk :
  tasks st !! i = Some tk -> tk ∈ pending_tasks st -> wait [i] st = [tk].
Proof.
  intros Htk Hp. unfold wait, named. simpl. rewrite Htk. simpl.
  rewrite filter_cons_True by done. by rewrite filter_nil.
Qed.

Lemma find_one st i tk :
  wf st -> tasks st !! i = Some tk ->
  list_find (fun original_task => tk = original_task) (tasks st) = Some (i, tk).
Proof.
  intros Hwf Htk. apply list_find_Some. split; [done|]. split; [done|].
  intros j y Hj Hlt <-.
  destruct (wf_tasks _ Hwf _ _ Hj) as [Hg _].
  destruct (wf_tasks _ Hwf _ _ Htk) as [Hg' _]. lia.
Qed.

Lemma yielded_fetches (l : list nat) : yielded (Fetch (E:=E) (X:=X) <$> l) = [].
Proof. induction l; simpl; auto. Qed.

(** The state after the scheduler has completed the fetch of source [i]
    first, [n] times in a row. *)
Lemma starve_others srcs i evs t n :
  srcs !! i = Some (evs, t) -> n <= length evs ->
  exists st tk,
    while_pending (replicate n [i]) (init srcs ()) = (st, Suspended) /\
    wf st /\ tasks st !! i = Some tk /\ tk ∈ pending_tasks st /\
    agent_runs st !! i = Some (drop n evs, t) /\
    yielded (trace st) = (fun e => (i, e)) <$> take n evs.
Proof.
  intros Hi. pose proof (lookup_lt_Some _ _ _ Hi) as Hlt.
  induction n as [|n IH]; intros Hn.
  - exists (init srcs ()), (i, i).
    assert (Htk : tasks (init (E:=E) (X:=X) srcs ()) !! i = Some (i, i)).
    { simpl. by rewrite list_lookup_fmap, lookup_seq_lt. }
    assert (Hp : (i, i) ∈ pending_tasks (init (E:=E) (X:=X) srcs ())).
    { simpl. apply elem_of_list_to_set. by eapply list_elem_of_lookup_2. }
    split; [|split; [apply init_wf|split; [done|split; [done|split]]]].
    + simpl. destruct (decide _) as [He|]; [|done].
      simpl in Hp. rewrite He in Hp. by apply not_elem_of_empty in Hp.
    + simpl. by rewrite drop_0.
    + simpl. by rewrite yielded_fetches.
  - destruct IH as (st & tk & Hrun & Hwf & Htk & Hp & Hg & Hy); [lia|].
    assert (is_Some (evs !! n)) as [e He] by (apply lookup_lt_is_Some; lia).
    destruct (wf_tasks _ Hwf _ _ Htk) as [Hgen _].
    set (st2 := mkState (<[i := (drop (S n) evs, t)]> (agent_runs st)) (world st)
                  (<[i := (created st, i)]> (tasks st))
                  ({[(created st, i)]} ∪ (pending_tasks st ∖ list_to_set [tk]))
                  (S (created st)) ((trace st ++ [Yield i e]) ++ [Fetch i])).
    assert (Hnew : (created st, i) ∈ pending_tasks st2)
      by (simpl; apply elem_of_union_l, elem_of_singleton; done).
    assert (Hstep : while_pending [[i]] st = (st2, Suspended)).
    { simpl. destruct (decide (pending_tasks st = ∅)) as [Hemp|_].
      { rewrite Hemp in Hp. by apply not_elem_of_empty in Hp. }
      rewrite (wait_one _ _ _ Htk Hp). simpl.
      unfold result. simpl. rewrite Hgen, Hg, (drop_S _ _ _ He).
      unfold anext, list_anext. simpl.
      unfold find_and_move_on. simpl. rewrite (find_one _ _ _ Hwf Htk).
      unfold move_on. simpl.
      destruct (decide _) as [Hemp|_]; [|done].
      change (pending_tasks st2 = ∅) in Hemp. rewrite Hemp in Hnew. by apply not_elem_of_empty in Hnew. }
    exists st2, (created st, i).
    split; [|split; [|split; [|split; [done|split]]]].
    + rewrite replicate_S_end. by rewrite (while_app_suspended _ _ _ _ Hrun).
    + by destruct (while_refines _ _ _ _ Hwf Hstep).
    + simpl. apply list_lookup_insert_eq. by eapply lookup_lt_Some.
    + simpl. apply list_lookup_insert_eq. by eapply lookup_lt_Some.
    + simpl. unfold yielded in *. rewrite !omap_app, Hy. simpl.
      rewrite app_nil_r, (take_S_r _ _ _ He), fmap_app. done.
Qed.

Lemma yielded_from_yielded j (tr : list (Action E X)) :
  yielded_from j tr
  = omap (fun p : nat * E => if decide (p.1 = j) then Some p.2 else None)
         (yielded tr).
Proof.
  induction tr as [|x tr IH]; [done|].
  destruct x as [k|k e|y|tk]; simpl; try done.
  unfold yielded_from in *. simpl. rewrite IH. by destruct (decide (k = j)).
Qed.

(** X15.  The merger gives no source a turn: as long as the scheduler
    completes the fetch of one source first, only the Events of that source
    are yielded, in their order, and each other source waits with its first
    fetch outstanding. *)
Theorem merge_no_fairness srcs i evs t n :
  srcs !! i = Some (evs, t) -> n <= length evs ->
  let r := _merge_agent_run srcs () (replicate n [i]) in
  r.2 = Suspended /\
  yielded (trace r.1) = (fun e => (i, e)) <$> take n evs /\
  forall j, j <> i -> j < length srcs ->
    yields j (trace r.1) = 0 /\ fetches j (trace r.1) = 1.
Proof.
  intros Hi Hn r.
  destruct (starve_others srcs i evs t n Hi Hn)
    as (st & tk & Hrun & _ & _ & _ & _ & Hy).
  assert (Hj : forall j, j <> i -> yields j (trace st) = 0).
  { intros j Hne. unfold yields. rewrite yielded_from_yielded, Hy.
    generalize (take n evs). intros l. induction l as [|e l IH]; [done|].
    csimpl. by rewrite decide_False by done. }
  pose proof (fun j H => run_balanced srcs () (replicate n [i]) j H) as Hb.
  subst r. unfold _merge_agent_run in *. rewrite Hrun in *. simpl in *.
  split; [done|]. split; [done|]. intros j Hne Hlt.
  split; [by apply Hj|]. rewrite (Hb j Hlt), Hj; done.
Qed.
End starvation.

(** *** The theorems at two sources, the first of which fails at its end *)

Lemma merge_yields_in_order_witness :
  let srcs := [(["a1"; "a2"], Error "boom"); (["b1"], Stop)] in
  srcs !! 0 = Some (["a1"; "a2"], Error "boom") /\
  yielded_from 0 (trace (_merge_agent_run srcs () [[1]; [0]]).1)
    `prefix_of` ["a1"; "a2"].
Proof.
  intros srcs.
  assert (H : srcs !! 0 = Some (["a1"; "a2"], Error "boom")) by reflexivity.
  split; [exact H|].
  exact (merge_yields_in_order srcs [[1]; [0]] 0 _ H).
Defined.

Lemma merge_error_reaches_consumer_witness :
  let srcs := [(["a1"; "a2"], Error "boom"); (["b1"], Stop)] in
  let sched := [[1]; [0]; [0; 1]; [0]; [1]] in
  srcs !! 0 = Some (["a1"; "a2"], Error "boom") /\
  fetch_bound srcs <= length sched /\
  exists st y, _merge_agent_run srcs () sched = (st, Raised y).
Proof.
  intros srcs sched.
  assert (H : srcs !! 0 = Some (["a1"; "a2"], Error "boom")) by reflexivity.
  assert (Hlen : fetch_bound srcs <= length sched) by (vm_compute; lia).
  split; [exact H|]. split; [exact Hlen|].
  exact (merge_error_reaches_consumer srcs sched 0 _ _ H Hlen).
Defined.


Lemma merge_completed_all_read_witness :
  let srcs := [(["a1"; "a2"], Stop (X:=string)); (["b1"], Stop)] in
  let r := _merge_agent_run srcs () [[1]; [0]; [0; 1]; [0]] in
  r.2 = Completed /\ srcs !! 0 = Some (["a1"; "a2"], Stop) /\
  yielded_from 0 (trace r.1) = ["a1"; "a2"].
Proof.
  intros srcs r.
  assert (Hr : r = (r.1, Completed)) by (vm_compute; reflexivity).
  assert (H : srcs !! 0 = Some (["a1"; "a2"], Stop)) by reflexivity.
  split; [vm_compute; reflexivity|]. split; [exact H|].
  exact (proj2 (merge_completed_all_read srcs _ r.1 0 _ Hr H)).
Defined.

Lemma merge_raised_is_source_error_witness :
  let srcs := [(["a1"; "a2"], Error "boom"); (["b1"], Stop)] in
  let r := _merge_agent_run srcs () [[0]; [0]; [0]] in
  r = (r.1, Raised "boom") /\
  exists j, srcs !! j = Some (yielded_from j (trace r.1), Error "boom").
Proof.
  intros srcs r.
  assert (Hr : r = (r.1, Raised "boom")) by (vm_compute; reflexivity).
  split; [exact Hr|].
  exact (merge_raised_is_source_error srcs _ r.1 "boom" Hr).
Defined.

Lemma merge_no_fairness_witness :
  let srcs := [(["a1"; "a2"], Error "boom"); (["b1"], Stop)] in
  let r := _merge_agent_run srcs () (replicate 2 [0]) in
  srcs !! 0 = Some (["a1"; "a2"], Error "boom") /\ 2 <= 2 /\
  r.2 = Suspended /\ yielded (trace r.1) = [(0, "a1"); (0, "a2")].
Proof.
  intros srcs r.
  assert (H : srcs !! 0 = Some (["a1"; "a2"], Error "boom")) by reflexivity.
  assert (Hn : 2 <= length ["a1"; "a2"]) by (simpl; lia).
  split; [exact H|]. split; [lia|].
  destruct (merge_no_fairness srcs 0 _ _ 2 H Hn) as (H1 & H2 & _).
  split; [exact H1|exact H2].
Defined.
End MergeFacts.

(** ** Parallel composition *)

Module ParallelFacts.
Import Branch BranchFacts Merge MergeFacts Parallel.

Implicit Types (store : Store) (r : Run) (a : Active (G:=Run) (W:=Store) (E:=Event) (X:=string)).

(** [advance] touches only the context it runs against, and produces what
    [says] predicts from that context's branch. *)
Lemma advance_spec who ctx ops : forall store c res ops' store',
  store !! ctx = Some c ->
  advance who ctx ops store = (res, ops', store') ->
  exists c', store' = <[ctx := c']> store /\
    match res with
    | Produced e => says who (branch c) ops = e :: says who (branch c') ops'
    | Exhausted => says who (branch c) ops = [] /\ ops' = []
    | Failed _ => False
    end.
Proof.
  induction ops as [|[t|n] rest IH]; intros store c res ops' store' Hc Hadv;
    simpl in Hadv.
  - inversion Hadv; subst. exists c. split; [by rewrite list_insert_id|done].
  - rewrite Hc in Hadv. inversion Hadv; subst. exists c.
    split; [by rewrite list_insert_id|done].
  - assert (Hc1 : alter (_set_branch_for_current_agent n) ctx store !! ctx
                  = Some (_set_branch_for_current_agent n c)).
    { by rewrite list_lookup_alter_eq, Hc. }
    destruct (IH _ _ _ _ _ Hc1 Hadv) as (c' & -> & Hres).
    exists c'. split; [|done].
    apply list_eq. intros k. destruct (decide (k = ctx)) as [->|Hne].
    + rewrite !list_lookup_insert_eq; [done|by eapply lookup_lt_Some|].
      rewrite length_alter. by eapply lookup_lt_Some.
    + rewrite !list_lookup_insert_ne by done. by rewrite list_lookup_alter_ne by done.
Qed.

Section isolation.
Variables (subs : list BaseAgent) (ctx : nat) (c1 : InvocationContext).
Local Abbreviation isolated := (isolated subs ctx c1).
Local Abbreviation iso_parent := (iso_parent subs ctx c1).
Local Abbreviation iso_length := (iso_length subs ctx c1).
Local Abbreviation iso_outside := (iso_outside subs ctx c1).
Local Abbreviation iso_child := (iso_child subs ctx c1).
Local Abbreviation iso_apart := (iso_apart subs ctx c1).

(** One fetch of a child: where its context is, before and after. *)
Lemma anext_own r store res r' store' :
  store !! ctx = Some c1 -> parent_ctx r = ctx ->
  (forall own, own_ctx r = Some own -> is_Some (store !! own)) ->
  anext r store = (res, r', store') ->
  exists own co co' mid,
    store' = <[own := co']> mid /\ mid !! own = Some co /\
    run_agent r' = run_agent r /\ parent_ctx r' = ctx /\ own_ctx r' = Some own /\
    (own_ctx r = Some own /\ mid = store \/
     own_ctx r = None /\ own = length store /\
       mid = store ++ [co] /\ co = clone_for (name (run_agent r)) c1) /\
    match res with
    | Produced e =>
        says (name (run_agent r)) (branch co) (todo r)
        = e :: says (name (run_agent r)) (branch co') (todo r')
    | Exhausted =>
        says (name (run_agent r)) (branch co) (todo r) = [] /\ todo r' = []
    | Failed _ => False
    end.
Proof.
  intros Hctx Hpar Hown Hn. unfold anext, run_anext in Hn.
  destruct (own_ctx r) as [own|] eqn:Ho.
  - destruct (Hown own eq_refl) as [co Hco].
    destruct (advance _ _ _ _) as [[res0 ops] st1] eqn:Hadv.
    inversion Hn; subst res0 r' st1.
    destruct (advance_spec _ _ _ _ _ _ _ _ Hco Hadv) as (co' & -> & Hres).
    exists own, co, co', store. simpl. repeat split; auto.
  - rewrite Hpar, Hctx in Hn.
    destruct (advance _ _ _ _) as [[res0 ops] st1] eqn:Hadv.
    inversion Hn; subst res0 r' st1.
    assert (Hco : (store ++ [clone_for (name (run_agent r)) c1]) !! length store
                  = Some (clone_for (name (run_agent r)) c1)).
    { by rewrite list_lookup_middle. }
    destruct (advance_spec _ _ _ _ _ _ _ _ Hco Hadv) as (co' & -> & Hres).
    exists (length store), (clone_for (name (run_agent r)) c1), co',
      (store ++ [clone_for (name (run_agent r)) c1]).
    simpl. repeat split; auto.
Qed.

Lemma yielded_from_reported i j res :
  yielded_from j (reported i res)
  = match res with
    | Produced e => if decide (i = j) then [e] else []
    | _ => []
    end.
Proof. destruct res; simpl; try done. by destruct (decide (i = j)). Qed.

Lemma isolated_fetch a i r res r' store' act' :
  isolated a -> a_runs a !! i = Some r ->
  anext r (a_world a) = (res, r', store') ->
  (forall x, res <> Failed x) /\
  isolated (mkActive (<[i := r']> (a_runs a)) store' act'
                     (a_trace a ++ reported i res)).
Proof.
  intros Hiso Hr Hn.
  assert (Hlt : i < length subs).
  { rewrite <- (iso_length _ Hiso). by eapply lookup_lt_Some. }
  destruct (lookup_lt_is_Some_2 _ _ Hlt) as [child Hchild].
  destruct (iso_child _ Hiso i child Hchild) as (r0 & Hr0 & Hag & Hpar & Hm).
  rewrite Hr in Hr0. inversion Hr0; subst r0. clear Hr0.
  pose proof (iso_parent _ Hiso) as Hctx.
  destruct (anext_own r (a_world a) res r' store' Hctx Hpar) as
    (own & co & co' & mid & Hst & Hmid & Hag' & Hpar' & Hown' & Hcase & Hres);
    [|done|].
  { intros own Ho. rewrite Ho in Hm. destruct Hm as (_ & co & Hco & _). eauto. }
  assert (F1 : own <> ctx).
  { destruct Hcase as [[Ho _]|(_ & -> & _)].
    - rewrite Ho in Hm. by destruct Hm.
    - apply lookup_lt_Some in Hctx. lia. }
  assert (F2 : forall k, k <> own -> store' !! k = a_world a !! k).
  { intros k Hk. rewrite Hst, list_lookup_insert_ne by done.
    destruct Hcase as [[_ ->]|(_ & -> & -> & _)]; [done|].
    destruct (decide (k < length (a_world a))).
    - by rewrite lookup_app_l.
    - rewrite !lookup_ge_None_2; [done|lia|rewrite length_app; simpl; lia]. }
  assert (F3 : store' !! own = Some co').
  { rewrite Hst. apply list_lookup_insert_eq. by eapply lookup_lt_Some. }
  assert (F4 : yielded_from i (a_trace a)
               ++ says (name child) (branch co) (todo r) = alone (branch c1) child).
  { destruct Hcase as [[Ho ->]|(Ho & _ & _ & ->)]; rewrite Ho in Hm.
    - destruct Hm as (_ & co0 & Hco0 & Hy). rewrite Hmid in Hco0.
      by inversion Hco0; subst co0.
    - destruct Hm as [-> ->]. by rewrite Hag. }
  assert (F5 : forall j rj oj, j <> i -> a_runs a !! j = Some rj ->
                 own_ctx rj = Some oj -> oj <> own).
  { intros j rj oj Hj Hrj Hoj.
    destruct Hcase as [[Ho _]|(_ & -> & _)].
    - intros ->. by apply (iso_apart _ Hiso i j r rj own).
    - assert (Hltj : j < length subs).
      { rewrite <- (iso_length _ Hiso). by eapply lookup_lt_Some. }
      destruct (lookup_lt_is_Some_2 _ _ Hltj) as [cj Hcj].
      destruct (iso_child _ Hiso j cj Hcj) as (r0 & Hr0 & _ & _ & Hmj).
      rewrite Hrj in Hr0. inversion Hr0; subst r0. rewrite Hoj in Hmj.
      destruct Hmj as (_ & coj & Hcoj & _). apply lookup_lt_Some in Hcoj. lia. }
  split.
  { intros x ->. done. }
  split; simpl.
  - by rewrite F2.
  - rewrite length_insert. apply Hiso.
  - intros k Hk. rewrite yielded_from_app, (iso_outside _ Hiso k Hk),
      yielded_from_reported.
    destruct res; try done. destruct (decide (i = k)); [lia|done].
  - intros j cj Hcj. destruct (decide (j = i)) as [->|Hne].
    + exists r'. rewrite list_lookup_insert_eq by (by eapply lookup_lt_Some).
      split; [done|]. rewrite Hchild in Hcj. inversion Hcj; subst cj.
      split; [congruence|]. split; [done|]. rewrite Hown'. simpl.
      split; [done|]. exists co'. split; [done|].
      rewrite yielded_from_app, yielded_from_reported, <- F4, <- Hag.
      destruct res as [e| |x]; [|destruct Hres as [-> ->]|done].
      * rewrite decide_True by done. by rewrite <- app_assoc, Hres.
      * by rewrite !app_nil_r.
    + destruct (iso_child _ Hiso j cj Hcj) as (rj & Hrj & Hagj & Hparj & Hmj).
      exists rj. rewrite list_lookup_insert_ne by done.
      split; [done|]. split; [done|]. split; [done|]. simpl.
      assert (Hy : yielded_from j (a_trace a ++ reported i res)
                   = yielded_from j (a_trace a)).
      { rewrite yielded_from_app, yielded_from_reported.
        destruct res; rewrite ?app_nil_r; try done.
        by rewrite decide_False, app_nil_r by done. }
      rewrite Hy. destruct (own_ctx rj) as [oj|] eqn:Hoj; [|done].
      destruct Hmj as (? & coj & Hcoj & Hyj). split; [done|].
      exists coj. split; [|done]. rewrite F2; [done|]. by eapply F5.
  - intros j k rj rk o Hjk Hrj Hrk Ho.
    destruct (decide (j = i)) as [->|Hj]; destruct (decide (k = i)) as [->|Hk];
      try done.
    + rewrite list_lookup_insert_eq in Hrj by (by eapply lookup_lt_Some).
      rewrite list_lookup_insert_ne in Hrk by done.
      inversion Hrj; subst rj. rewrite Hown' in Ho. inversion Ho; subst o.
      intros Hrk'. by apply (F5 k rk own).
    + rewrite list_lookup_insert_eq in Hrk by (by eapply lookup_lt_Some).
      rewrite list_lookup_insert_ne in Hrj by done.
      inversion Hrk; subst rk. rewrite Hown'. intros Heq.
      inversion Heq; subst o. by apply (F5 j rj own).
    + rewrite list_lookup_insert_ne in Hrj, Hrk by done.
      by apply (iso_apart _ Hiso j k rj rk o).
Qed.

Lemma isolated_step a a' : isolated a -> astep a a' -> isolated a'.
Proof.
  intros Hiso Hstep.
  destruct Hstep as [gs w act tr i g e g' w' Hi Hg Hn|gs w act tr i g g' w' Hi Hg Hn].
  - by destruct (isolated_fetch _ i g _ g' w' act Hiso Hg Hn) as [_ ?].
  - destruct (isolated_fetch _ i g _ g' w' (act ∖ {[i]}) Hiso Hg Hn) as [_ H].
    simpl in H. by rewrite app_nil_r in H.
Qed.

Lemma isolated_never_fails a x a' : isolated a -> afail a x a' -> False.
Proof.
  intros Hiso Hf. destruct Hf as [gs w act tr i g y g' w' Hi Hg Hn].
  destruct (isolated_fetch _ i g _ g' w' act Hiso Hg Hn) as [Hnf _].
  by apply (Hnf y).
Qed.

Lemma isolated_init store :
  store !! ctx = Some c1 ->
  isolated (abs_init ((fun agent => run_async agent ctx) <$> subs) store).
Proof.
  intros Hctx. split; simpl.
  - done.
  - by rewrite length_fmap.
  - intros i _. apply yielded_from_fetches.
  - intros i child Hi. exists (run_async child ctx).
    rewrite list_lookup_fmap, Hi. split; [done|].
    repeat split. simpl. apply yielded_from_fetches.
  - intros i j ri rj own _ Hi _ Ho.
    apply list_lookup_fmap_Some in Hi as (ag & -> & _). done.
Qed.

Lemma isolated_reachable store a :
  store !! ctx = Some c1 ->
  rtc astep (abs_init ((fun agent => run_async agent ctx) <$> subs) store) a ->
  isolated a.
Proof.
  intros Hctx. apply (reachable_ind isolated); [by apply isolated_init|].
  intros. by eapply isolated_step.
Qed.

Lemma isolated_prefix a i child :
  isolated a -> subs !! i = Some child ->
  yielded_from i (a_trace a) `prefix_of` alone (branch c1) child.
Proof.
  intros Hiso Hi. destruct (iso_child _ Hiso i child Hi) as (r & _ & _ & _ & Hm).
  destruct (own_ctx r).
  - destruct Hm as (_ & co & _ & <-). by apply prefix_app_r.
  - destruct Hm as [_ ->]. apply prefix_nil.
Qed.
End isolation.

Lemma elem_of_yielded {E X} (tr : list (Action E X)) i e :
  (i, e) ∈ yielded tr <-> e ∈ yielded_from i tr.
Proof.
  unfold yielded, yielded_from. rewrite !list_elem_of_omap. split.
  - intros (x & Hx & Hy). exists x. split; [done|]. destruct x; try done.
    inversion Hy; subst. by rewrite decide_True.
  - intros (x & Hx & Hy). exists x. split; [done|]. destruct x; try done.
    destruct (decide (i0 = i)); [|done]. by inversion Hy; subst.
Qed.

Lemma says_only who b (ts : list string) :
  says who b (Say <$> ts) = mkEvent who b <$> ts.
Proof. induction ts as [|t ts IH]; csimpl; [done|]. by rewrite IH. Qed.

Lemma count_says_only (ts : list string) : count_says (Say <$> ts) = length ts.
Proof. induction ts as [|t ts IH]; csimpl; [done|]. by rewrite IH. Qed.

Lemma says_length who ops : forall b, length (says who b ops) = count_says ops.
Proof.
  induction ops as [|[t|n] ops IH]; intros b; simpl; [done| |apply IH].
  by rewrite IH.
Qed.

(** A fetch uses up one of the Events of the child, or finds none left. *)
Lemma advance_count who ctx ops : forall store res ops' store',
  advance who ctx ops store = (res, ops', store') ->
  match res with
  | Produced _ => count_says ops = S (count_says ops')
  | Exhausted => count_says ops = 0 /\ ops' = []
  | Failed _ => True
  end.
Proof.
  induction ops as [|[t|n] rest IH]; intros store res ops' store' Hadv;
    simpl in Hadv.
  - by inversion Hadv; subst.
  - destruct (store !! ctx); inversion Hadv; subst; done.
  - by apply IH in Hadv.
Qed.

Lemma anext_count r store res r' store' :
  anext r store = (res, r', store') ->
  match res with
  | Produced _ => count_says (todo r) = S (count_says (todo r'))
  | Exhausted => count_says (todo r) = 0 /\ todo r' = [] /\ started r' = 1
  | Failed _ => True
  end.
Proof.
  unfold anext, run_anext. destruct (own_ctx r) as [own|] eqn:Ho.
  - destruct (advance _ _ _ _) as [[res0 ops] st1] eqn:Hadv.
    intros [= <- <- <-]. apply advance_count in Hadv.
    destruct res0; simpl; tauto.
  - destruct (store !! parent_ctx r) as [parent|]; [|by intros [= <- <- <-]].
    destruct (advance _ _ _ _) as [[res0 ops] st1] eqn:Hadv.
    intros [= <- <- <-]. apply advance_count in Hadv.
    destruct res0; simpl; tauto.
Qed.

(** A fetch changes no invocation; the first fetch of a child adds one
    context, with the invocation of the context the child was given. *)
Lemma advance_ids who ctx ops : forall store res ops' store',
  advance who ctx ops store = (res, ops', store') ->
  invocation_id <$> store' = invocation_id <$> store.
Proof.
  induction ops as [|[t|n] rest IH]; intros store res ops' store' Hadv;
    simpl in Hadv.
  - by inversion Hadv; subst.
  - destruct (store !! ctx); by inversion Hadv; subst.
  - apply IH in Hadv. rewrite Hadv.
    rewrite (list_fmap_alter invocation_id _ id).
    + by apply list_alter_id.
    + by apply Forall_true.
Qed.

Lemma anext_ids r store res r' store' parent :
  store !! parent_ctx r = Some parent ->
  anext r store = (res, r', store') ->
  invocation_id <$> store'
  = (invocation_id <$> store)
    ++ match own_ctx r with Some _ => [] | None => [invocation_id parent] end.
Proof.
  intros Hp. unfold anext, run_anext. destruct (own_ctx r) as [own|] eqn:Ho.
  - destruct (advance _ _ _ _) as [[res0 ops] st1] eqn:Hadv.
    intros [= <- <- <-]. apply advance_ids in Hadv. by rewrite app_nil_r.
  - rewrite Hp. destruct (advance _ _ _ _) as [[res0 ops] st1] eqn:Hadv.
    intros [= <- <- <-]. apply advance_ids in Hadv.
    by rewrite Hadv, fmap_app.
Qed.

(** Each step of the machine uses up one of the fetches a run needs. *)
Lemma still_to_read_step a a' : astep a a' -> S (still_to_read a') = still_to_read a.
Proof.
  intros Hstep. unfold still_to_read.
  destruct Hstep as [gs w act tr i g e g' w' Hi Hg Hn|gs w act tr i g g' w' Hi Hg Hn];
    simpl in *; apply anext_count in Hn;
    pose proof (sum_list_insert (fun r => count_says (todo r)) gs i _ g' Hg) as Hs;
    simpl in Hs.
  - lia.
  - destruct Hn as (H0 & Hnil & _). rewrite Hnil in Hs. simpl in Hs.
    rewrite size_difference by (by apply singleton_subseteq_l).
    rewrite size_singleton.
    assert (size act <> 0); [|lia].
    intros Hz. apply size_empty_inv in Hz. apply leibniz_equiv in Hz.
    subst act. by apply not_elem_of_empty in Hi.
Qed.

Lemma still_to_read_init subs ctx store :
  still_to_read (abs_init ((fun agent => run_async agent ctx) <$> subs) store)
  = fetches_needed subs.
Proof.
  unfold still_to_read, fetches_needed. simpl.
  rewrite size_list_to_set by apply NoDup_seq. rewrite length_seq, length_fmap.
  induction subs as [|child l IH]; csimpl; [done|]. lia.
Qed.

Lemma still_to_read_active a : a_active a <> ∅ -> 0 < still_to_read a.
Proof.
  intros Hne. unfold still_to_read.
  assert (size (a_active a) <> 0); [|lia].
  intros Hz. apply size_empty_inv in Hz. by apply leibniz_equiv in Hz.
Qed.

Lemma prefix_insert_after {A} (l1 l : list A) i x :
  l1 `prefix_of` l -> length l1 <= i -> l1 `prefix_of` <[i := x]> l.
Proof.
  intros [k ->] Hi. rewrite insert_app_r_alt by done. by apply prefix_app_r.
Qed.

Section clones.
Variables (subs : list BaseAgent) (ctx : nat) (c1 : InvocationContext).
Variable (store1 : Store).
Local Abbreviation isolated := (isolated subs ctx c1).
Local Abbreviation cloned := (cloned store1 c1).

Lemma cloned_init :
  cloned (abs_init ((fun agent => run_async agent ctx) <$> subs) store1).
Proof.
  split; simpl.
  - done.
  - intros i r own Hi Ho.
    apply list_lookup_fmap_Some in Hi as (ag & -> & _). done.
  - rewrite <- list_fmap_compose.
    assert (sum_list ((started ∘ (fun agent => run_async agent ctx)) <$> subs) = 0)
      as ->; [|lia].
    induction subs as [|child l IH]; csimpl; [done|]. by rewrite IH.
  - rewrite <- length_fmap with (f := invocation_id), drop_all. constructor.
  - intros i r Hi Hn. exfalso. apply Hn.
    apply elem_of_list_to_set, elem_of_seq. apply lookup_lt_Some in Hi. lia.
Qed.

Lemma cloned_step a a' : isolated a -> cloned a -> astep a a' -> cloned a'.
Proof.
  intros Hiso Hcl Hstep.
  assert (Hgen : forall i r res r' store' act',
            a_runs a !! i = Some r -> i ∈ a_active a ->
            anext r (a_world a) = (res, r', store') ->
            (act' = a_active a \/
             act' = a_active a ∖ {[i]} /\ todo r' = [] /\ started r' = 1) ->
            forall tr', cloned (mkActive (<[i := r']> (a_runs a)) store' act' tr')).
  { intros i r res r' store' act' Hr Hi Hn Hact tr'.
    assert (Hlt : i < length subs).
    { rewrite <- (iso_length _ _ _ _ Hiso). by eapply lookup_lt_Some. }
    destruct (lookup_lt_is_Some_2 _ _ Hlt) as [child Hchild].
    destruct (iso_child _ _ _ _ Hiso i child Hchild) as (r0 & Hr0 & Hag & Hpar & Hm).
    rewrite Hr in Hr0. inversion Hr0; subst r0. clear Hr0.
    pose proof (iso_parent _ _ _ _ Hiso) as Hctx.
    assert (Hpc : a_world a !! parent_ctx r = Some c1) by (by rewrite Hpar).
    pose proof (anext_ids _ _ _ _ _ _ Hpc Hn) as Hids.
    destruct (anext_own ctx c1 r (a_world a) res r' store' Hctx Hpar) as
      (own & co & co' & mid & Hst & Hmid & _ & _ & Hown' & Hcase & _);
      [|done|].
    { intros own Ho. rewrite Ho in Hm. destruct Hm as (_ & co & Hco & _). eauto. }
    pose proof (prefix_length _ _ (cl_prefix _ _ _ Hcl)) as Hpl.
    assert (Hlen : length store'
                   = length (a_world a) + (1 - started r) /\
                   length store1 <= own < length store').
    { rewrite Hst, length_insert. unfold started.
      destruct Hcase as [[Ho ->]|(Ho & -> & -> & _)]; rewrite Ho.
      - pose proof (cl_own _ _ _ Hcl i r own Hr Ho). lia.
      - rewrite length_app. simpl. lia. }
    destruct Hlen as [Hlen Hown].
    split; simpl.
    - rewrite Hst. apply prefix_insert_after; [|lia].
      destruct Hcase as [[_ ->]|(_ & _ & -> & _)]; [apply Hcl|].
      apply prefix_app_r, Hcl.
    - intros j rj oj Hj Hoj. destruct (decide (j = i)) as [->|Hne].
      + rewrite list_lookup_insert_eq in Hj by (by eapply lookup_lt_Some).
        inversion Hj; subst rj. rewrite Hown' in Hoj. by inversion Hoj; subst oj.
      + rewrite list_lookup_insert_ne in Hj by done.
        pose proof (cl_own _ _ _ Hcl j rj oj Hj Hoj). lia.
    - pose proof (sum_list_insert started (a_runs a) i r r' Hr) as Hs.
      pose proof (cl_count _ _ _ Hcl) as Hc.
      assert (started r' = 1) by (unfold started; by rewrite Hown').
      assert (started r <= 1) by (unfold started; destruct (own_ctx r); lia).
      lia.
    - rewrite Hids, drop_app_le by (rewrite length_fmap; lia).
      apply Forall_app. split; [apply Hcl|].
      destruct (own_ctx r); by repeat constructor.
    - intros j rj Hj Hnin. destruct (decide (j = i)) as [->|Hne].
      + rewrite list_lookup_insert_eq in Hj by (by eapply lookup_lt_Some).
        inversion Hj; subst rj.
        destruct Hact as [->|(-> & ? & ?)]; [done|done].
      + rewrite list_lookup_insert_ne in Hj by done.
        apply (cl_done _ _ _ Hcl j rj Hj).
        destruct Hact as [->|(-> & _)]; [done|].
        intros Hin. apply Hnin. apply elem_of_difference. split; [done|].
        by rewrite elem_of_singleton. }
  destruct Hstep as [gs w act tr i g e g' w' Hi Hg Hn|gs w act tr i g g' w' Hi Hg Hn].
  - apply (Hgen i g _ g' w' act Hg Hi Hn). by left.
  - apply (Hgen i g _ g' w' (act ∖ {[i]}) Hg Hi Hn). right.
    apply anext_count in Hn. tauto.
Qed.

Lemma cloned_reachable a :
  store1 !! ctx = Some c1 ->
  rtc astep (abs_init ((fun agent => run_async agent ctx) <$> subs) store1) a ->
  isolated a /\ cloned a.
Proof.
  intros Hctx.
  apply (reachable_ind (fun a => isolated a /\ cloned a)).
  - split; [by apply isolated_init|apply cloned_init].
  - intros a1 a2 [Hiso Hcl] Hstep.
    split; [by eapply isolated_step|by eapply cloned_step].
Qed.
End clones.

(** What a run of the Parallel agent leaves and yields. *)
Lemma run_isolated self ctx store c sched st o :
  store !! ctx = Some c ->
  _run_async_impl self ctx store sched = (st, o) ->
  let c1 := _set_branch_for_current_agent (self_name self) c in
  o <> Raised "no context" /\
  world st !! ctx = Some c1 /\
  (forall i child, sub_agents self !! i = Some child ->
     yielded_from i (trace st) `prefix_of` alone (branch c1) child) /\
  (forall i, length (sub_agents self) <= i -> yielded_from i (trace st) = []).
Proof.
  intros Hc Hrun c1. unfold _run_async_impl in Hrun.
  assert (Hc1 : alter (_set_branch_for_current_agent (self_name self)) ctx store
                !! ctx = Some c1).
  { by rewrite list_lookup_alter_eq, Hc. }
  destruct (run_refines _ _ _ _ _ Hrun) as [_ Hp].
  assert (isolated (sub_agents self) ctx c1 (abs [] st)) as Hiso.
  { destruct o as [|x|].
    - destruct Hp as [Hp _]. by eapply isolated_reachable.
    - destruct Hp as (a1 & a2 & Hp & Hf & _). exfalso.
      eapply isolated_never_fails; [|done]. by eapply isolated_reachable.
    - by eapply isolated_reachable. }
  split; [|split; [|split]].
  - destruct o as [|x|]; try done.
    destruct Hp as (a1 & a2 & Hp & Hf & _). exfalso.
    eapply isolated_never_fails; [|done]. by eapply isolated_reachable.
  - apply (iso_parent _ _ _ _ Hiso).
  - intros i child Hi. by apply (isolated_prefix _ _ _ _ _ _ Hiso).
  - apply (iso_outside _ _ _ _ Hiso).
Qed.

Lemma sum_list_ones {A} (f : A -> nat) (l : list A) :
  (forall i x, l !! i = Some x -> f x = 1) -> sum_list (f <$> l) = length l.
Proof.
  induction l as [|x l IH]; intros Hall; csimpl; [done|].
  rewrite (Hall 0 x eq_refl), IH; [done|].
  intros i y Hi. apply (Hall (S i) y Hi).
Qed.

(** What a run of the Parallel agent leaves in the store, and what it
    yields when it is carried on to its end. *)
Lemma run_cloned self ctx store c sched st o :
  store !! ctx = Some c ->
  _run_async_impl self ctx store sched = (st, o) ->
  let c1 := _set_branch_for_current_agent (self_name self) c in
  alter (_set_branch_for_current_agent (self_name self)) ctx store
    `prefix_of` world st /\
  (fetches_needed (sub_agents self) <= length sched ->
   o = Completed /\
   (forall i child, sub_agents self !! i = Some child ->
      yielded_from i (trace st) = alone (branch c1) child) /\
   length (world st) = length store + length (sub_agents self) /\
   (forall k co, length store <= k -> world st !! k = Some co ->
      invocation_id co = invocation_id c)).
Proof.
  intros Hc Hrun c1. unfold _run_async_impl in Hrun.
  set (store1 := alter (_set_branch_for_current_agent (self_name self)) ctx store)
    in *.
  set (runs := (fun agent => run_async agent ctx) <$> sub_agents self) in *.
  assert (Hc1 : store1 !! ctx = Some c1).
  { subst store1. by rewrite list_lookup_alter_eq, Hc. }
  destruct (run_refines _ _ _ _ _ Hrun) as [_ Hp].
  assert (Hreach : rtc astep (abs_init runs store1) (abs [] st)).
  { destruct o as [|x|]; [by destruct Hp| |done].
    destruct Hp as (a1 & a2 & Hp & Hf & _). exfalso.
    eapply isolated_never_fails; [|done]. by eapply isolated_reachable. }
  destruct (cloned_reachable _ _ _ _ _ Hc1 Hreach) as [Hiso Hcl].
  split; [apply (cl_prefix _ _ _ Hcl)|]. intros Hlen.
  assert (Ho : o = Completed).
  { pose proof (while_ends still_to_read still_to_read_step still_to_read_active
                  sched (init runs store1) (init_wf _ _)) as Hns.
    rewrite abs_of_init in Hns. subst runs.
    rewrite still_to_read_init in Hns. specialize (Hns Hlen).
    unfold _merge_agent_run in Hrun. rewrite Hrun in Hns. simpl in Hns.
    destruct o as [|x|]; [done| |done].
    destruct Hp as (a1 & a2 & Hp & Hf & _). exfalso.
    eapply isolated_never_fails; [|done]. by eapply isolated_reachable. }
  subst o. split; [done|]. destruct Hp as [_ Hemp].
  assert (Hact : a_active (abs [] st) = ∅).
  { simpl. unfold active_of. rewrite Hemp. simpl.
    by rewrite set_map_empty, union_empty_r_L. }
  assert (Hdone : forall i r, agent_runs st !! i = Some r ->
            todo r = [] /\ started r = 1).
  { intros i r Hr. apply (cl_done _ _ _ Hcl i r Hr).
    rewrite Hact. apply not_elem_of_empty. }
  split; [|split].
  - intros i child Hi.
    destruct (iso_child _ _ _ _ Hiso i child Hi) as (r & Hr & _ & _ & Hm).
    destruct (Hdone i r Hr) as [Hnil Hst]. unfold started in Hst.
    destruct (own_ctx r); [|done].
    destruct Hm as (_ & co & _ & Hy). rewrite Hnil in Hy. simpl in *.
    by rewrite app_nil_r in Hy.
  - pose proof (cl_count _ _ _ Hcl) as Hcount. simpl in Hcount.
    rewrite sum_list_ones in Hcount by (intros i r Hr; by apply (Hdone i r)).
    rewrite Hcount. subst store1. rewrite length_alter.
    rewrite <- (iso_length _ _ _ _ Hiso). done.
  - intros k co Hk Hco.
    pose proof (cl_ids _ _ _ Hcl) as Hids. simpl in Hids.
    rewrite Forall_lookup in Hids.
    apply (Hids (k - length store1) (invocation_id co)).
    rewrite lookup_drop, list_lookup_fmap.
    subst store1. rewrite length_alter.
    replace (length store + (k - length store)) with k by lia.
    by rewrite Hco.
Qed.

(** C5.  A run of a Parallel agent first appends the name of the agent to
    the branch of the context it was given, which then stays so, as does
    the rest of the store.  Every child runs against a clone of that
    context, a new context with the same invocation, whose branch is that
    branch extended with the name of the child: under every schedule what a
    child yields is a beginning of what it yields alone, whatever its
    siblings do to their branches, and when the run is carried on to its end
    it completes, each child has yielded all that it yields alone, and the
    store has one new context for each child.  In particular the Events of
    the children X and Y of a Parallel agent P run under an empty branch are
    all yielded and carry the branches P.X and P.Y. *)
Theorem parallel_children_isolated :
  (forall self ctx store c sched st o,
     store !! ctx = Some c ->
     _run_async_impl self ctx store sched = (st, o) ->
     let b := Some (extended_branch (branch c) (self_name self)) in
     branch <$> world st !! ctx = Some b /\
     alter (_set_branch_for_current_agent (self_name self)) ctx store
       `prefix_of` world st /\
     (forall i child, sub_agents self !! i = Some child ->
        yielded_from i (trace st) `prefix_of` alone b child) /\
     (forall i e, (i, e) ∈ yielded (trace st) ->
        exists child, sub_agents self !! i = Some child /\ e ∈ alone b child) /\
     (fetches_needed (sub_agents self) <= length sched ->
      o = Completed /\
      (forall i child, sub_agents self !! i = Some child ->
         yielded_from i (trace st) = alone b child) /\
      length (world st) = length store + length (sub_agents self) /\
      (forall k co, length store <= k -> world st !! k = Some co ->
         invocation_id co = invocation_id c))) /\
  (forall ctx store c tx ty sched st o,
     store !! ctx = Some c -> truthy (branch c) = false ->
     _run_async_impl
       (mkParallelAgent "P" [mkBaseAgent "X" (Say <$> tx);
                             mkBaseAgent "Y" (Say <$> ty)])
       ctx store sched = (st, o) ->
     (forall i e, (i, e) ∈ yielded (trace st) ->
        (i = 0 /\ author e = "X" /\ event_branch e = Some "P.X") \/
        (i = 1 /\ author e = "Y" /\ event_branch e = Some "P.Y")) /\
     (length tx + length ty + 2 <= length sched ->
      o = Completed /\
      yielded_from 0 (trace st) = mkEvent "X" (Some "P.X") <$> tx /\
      yielded_from 1 (trace st) = mkEvent "Y" (Some "P.Y") <$> ty)).
Proof.
  assert (Hgen : forall self ctx store c sched st o,
     store !! ctx = Some c ->
     _run_async_impl self ctx store sched = (st, o) ->
     let b := Some (extended_branch (branch c) (self_name self)) in
     branch <$> world st !! ctx = Some b /\
     alter (_set_branch_for_current_agent (self_name self)) ctx store
       `prefix_of` world st /\
     (forall i child, sub_agents self !! i = Some child ->
        yielded_from i (trace st) `prefix_of` alone b child) /\
     (forall i e, (i, e) ∈ yielded (trace st) ->
        exists child, sub_agents self !! i = Some child /\ e ∈ alone b child) /\
     (fetches_needed (sub_agents self) <= length sched ->
      o = Completed /\
      (forall i child, sub_agents self !! i = Some child ->
         yielded_from i (trace st) = alone b child) /\
      length (world st) = length store + length (sub_agents self) /\
      (forall k co, length store <= k -> world st !! k = Some co ->
         invocation_id co = invocation_id c))).
  { intros self ctx store c sched st o Hc Hrun b.
    destruct (run_isolated _ _ _ _ _ _ _ Hc Hrun) as (_ & Hw & Hpre & Hout).
    destruct (run_cloned _ _ _ _ _ _ _ Hc Hrun) as (Hfr & Hlive).
    split; [by rewrite Hw|]. split; [done|]. split; [done|]. split; [|done].
    intros i e Hin. apply elem_of_yielded in Hin.
    destruct (decide (i < length (sub_agents self))) as [Hlt|Hge].
    - destruct (lookup_lt_is_Some_2 _ _ Hlt) as [child Hchild].
      exists child. split; [done|].
      destruct (Hpre i child Hchild) as [k Hk]. simpl in Hk. subst b.
      rewrite Hk. apply elem_of_app. by left.
    - rewrite Hout in Hin by lia. by apply elem_of_nil in Hin. }
  split; [done|].
  intros ctx store c tx ty sched st o Hc Hb Hrun.
  destruct (Hgen _ _ _ _ _ _ _ Hc Hrun) as (_ & _ & _ & Hev & Hlive).
  simpl in Hev, Hlive. rewrite (extended_branch_falsy _ _ Hb) in Hev, Hlive.
  split.
  - intros i e Hin.
    destruct (Hev i e Hin) as (child & Hchild & He).
    destruct i as [|[|i]]; simpl in Hchild; inversion Hchild; subst child;
      unfold alone in He; simpl in He; rewrite says_only in He;
      apply list_elem_of_fmap in He as (t & -> & _); simpl; auto.
  - intros Hlen. destruct Hlive as (Ho & Hall & _).
    { unfold fetches_needed. simpl. rewrite !count_says_only. lia. }
    split; [done|]. split.
    + rewrite (Hall 0 _ eq_refl). unfold alone. simpl. by rewrite says_only.
    + rewrite (Hall 1 _ eq_refl). unfold alone. simpl. by rewrite says_only.
Qed.

Lemma parallel_children_isolated_witness :
  let self := mkParallelAgent "P" [mkBaseAgent "X" [Say "x1"; Say "x2"];
                                   mkBaseAgent "Y" [Say "y1"]] in
  let c := {| invocation_id := "inv"; branch := None |} in
  let sched := [[1; 0]; [0]; [0; 1]; [0]; [1]] in
  let r := _run_async_impl self 0 [c] sched in
  [c] !! 0 = Some c /\
  fetches_needed (sub_agents self) <= length sched /\
  branch <$> world r.1 !! 0 = Some (Some "P") /\
  r.2 = Completed /\
  yielded_from 0 (trace r.1)
  = [mkEvent "X" (Some "P.X") "x1"; mkEvent "X" (Some "P.X") "x2"] /\
  length (world r.1) = 3.
Proof.
  intros self c sched r. assert (Hc : [c] !! 0 = Some c) by reflexivity.
  assert (Hlen : fetches_needed (sub_agents self) <= length sched)
    by (vm_compute; lia).
  split; [exact Hc|]. split; [exact Hlen|].
  destruct (proj1 parallel_children_isolated self 0 [c] c sched r.1 r.2 Hc
              (surjective_pairing r)) as (Hb & _ & _ & _ & Hlive).
  destruct (Hlive Hlen) as (Ho & Hall & Hn & _).
  split; [exact Hb|]. split; [exact Ho|].
  split; [exact (Hall 0 _ eq_refl)|exact Hn].
Defined.

(** C9.  A Parallel agent without children yields no Event and its run
    ends, under every schedule. *)
Theorem parallel_no_children self_name ctx store sched :
  exists st,
    _run_async_impl (mkParallelAgent self_name []) ctx store sched
    = (st, Completed) /\
    trace st = [] /\ yielded (trace st) = [].
Proof.
  unfold _run_async_impl, _merge_agent_run. simpl.
  eexists. split; [|split].
  - destruct sched; simpl; reflexivity.
  - done.
  - done.
Qed.
End ParallelFacts.

(** ** The processor pipeline *)

Module FlowFacts.
Import Flow.

Section order.
Context {C X : Type} (process : Processor -> C -> C * option X).

(** What a run of a list of processors leaves in the notes: the processors
    that ran are a beginning of the list, the whole list unless one of them
    failed, and then the one that failed is the last that ran. *)
Lemma run_noting ps : forall log c,
  let r := run_processors (noting process) ps (log, c) in
  exists ran, r.1.1 = log ++ ran /\ ran `prefix_of` ps /\
    r.1.2 = (run_processors process ps c).1 /\
    r.2 = (run_processors process ps c).2 /\
    (r.2 = None -> ran = ps) /\
    (forall x, r.2 = Some x ->
       exists before_it p c0, ran = before_it ++ [p] /\ (process p c0).2 = Some x).
Proof.
  induction ps as [|p ps IH]; intros log c; simpl.
  - exists []. rewrite app_nil_r. by repeat split.
  - unfold noting at 2. simpl.
    destruct (process p c) as [c' [x|]] eqn:Hp; simpl.
    + exists [p]. split; [done|]. split; [by apply prefix_cons, prefix_nil|].
      split; [done|]. split; [done|]. split; [done|].
      intros y [= <-]. exists [], p, c. by rewrite Hp.
    + destruct (IH (log ++ [p]) c') as (ran & E1 & Hpre & E2 & E3 & Hall & Hfail).
      exists (p :: ran). split; [by rewrite E1, <- app_assoc|].
      split; [by apply prefix_cons|]. split; [done|]. split; [done|]. split.
      * intros Hn. by rewrite (Hall Hn).
      * intros y Hy. destruct (Hfail y Hy) as (l & q & c0 & -> & Hq).
        by exists (p :: l), q, c0.
Qed.
End order.

(** C6.  The request and response processors of a [SingleFlow] are the
    lists its construction sets.  A turn runs each list from left to right,
    whatever the processors do: the processors that ran are always a
    beginning of the list, in the order of the list, so none is passed over
    or run out of turn; they are the whole list unless a processor fails,
    and then the processor that failed is the last that ran and no request
    is sent.  The contents processor comes before the NL-planning and the
    code-execution request processors. *)
Theorem single_flow_order {C X : Type} (process : Processor -> C -> C * option X)
    (base : LlmFlow) (c : C) :
  let flow := SingleFlow_init base in
  let requests :=
    run_processors (noting process) (request_processors flow) ([], c) in
  let responses :=
    run_processors (noting process) (response_processors flow) ([], c) in
  requests.1.1 `prefix_of` request_processors flow /\
  responses.1.1 `prefix_of` response_processors flow /\
  (requests.2 = None ->
   requests.1.1
   = request_processors base ++
     [basic; auth_preprocessor; instructions; identity; contents;
      _nl_planning; _code_execution]) /\
  (responses.2 = None ->
   responses.1.1 = response_processors base ++ [_nl_planning; _code_execution]) /\
  (forall x, requests.2 = Some x ->
     exists before_it p c0, requests.1.1 = before_it ++ [p] /\
       (process p c0).2 = Some x) /\
  (forall x, responses.2 = Some x ->
     exists before_it p c0, responses.1.1 = before_it ++ [p] /\
       (process p c0).2 = Some x) /\
  (forall sent,
     request_sent (noting process) (request_processors flow) ([], c) = Some sent ->
     sent.1 = request_processors flow) /\
  before contents _nl_planning (request_processors flow) /\
  before contents _code_execution (request_processors flow) /\
  before _nl_planning _code_execution (response_processors flow).
Proof.
  intros flow requests responses.
  destruct (run_noting process (request_processors flow) [] c)
    as (ran1 & E1 & P1 & _ & _ & A1 & F1).
  destruct (run_noting process (response_processors flow) [] c)
    as (ran2 & E2 & P2 & _ & _ & A2 & F2).
  fold requests in E1, A1, F1. fold responses in E2, A2, F2.
  simpl in E1, E2. rewrite E1, E2.
  split; [done|]. split; [done|].
  split; [intros Hn; by rewrite (A1 Hn)|].
  split; [intros Hn; by rewrite (A2 Hn)|].
  split; [done|]. split; [done|]. split; [|split; [|split]].
  - intros sent. unfold request_sent. fold requests.
    destruct requests as [c' [x|]] eqn:Hr; [done|].
    intros [= <-]. simpl in *. rewrite E1. by apply A1.
  - exists (request_processors base ++ [basic; auth_preprocessor; instructions; identity]),
      [], [_code_execution].
    simpl. by rewrite <- app_assoc.
  - exists (request_processors base ++ [basic; auth_preprocessor; instructions; identity]),
      [_nl_planning], [].
    simpl. by rewrite <- app_assoc.
  - exists (response_processors base), [], []. done.
Qed.
End FlowFacts.

(** ** The response assembler *)

Module AssemblerFacts.
Import Assembler.

(** C4.  Three text fragments, two fragments of the tool call of index 0
    and a finish marker give, in this order, three partial Text Events with
    the texts of the fragments and one FunctionCall Event with the id and the
    name of the first fragment and, as arguments, the parse of the two
    argument fragments put together. *)
Theorem stream_text_then_tool_call {Args : Type} (parse : string -> option Args)
    (id name fragment1 fragment2 reason : string) (args : Args) :
  parse (fragment1 +:+ fragment2) = Some args ->
  assemble_stream parse
    [TextDelta "zero, "; TextDelta "one, "; TextDelta "two:";
     ToolCallDelta 0 (Some id) (Some name) fragment1;
     ToolCallDelta 0 None None fragment2;
     Finish reason]
  = [Emit (mkEvent model_role [Text "zero, "] true);
     Emit (mkEvent model_role [Text "one, "] true);
     Emit (mkEvent model_role [Text "two:"] true);
     Emit (mkEvent model_role [FunctionCall id name args] false)].
Proof.
  intros Hparse. unfold assemble_stream. simpl.
  unfold finish_call. simpl. by rewrite Hparse.
Qed.

(** The chunks of [STREAMING_MODEL_RESPONSE] and what
    [test_generate_content_async_stream] finds. *)
Lemma stream_text_then_tool_call_witness :
  parse_string_object (json "{'test_arg': 'test_" +:+ json "value'}")
    = Some [("test_arg", "test_value")] /\
  assemble_stream parse_string_object
    [TextDelta "zero, "; TextDelta "one, "; TextDelta "two:";
     ToolCallDelta 0 (Some "test_tool_call_id") (Some "test_function")
       (json "{'test_arg': 'test_");
     ToolCallDelta 0 None None (json "value'}");
     Finish "tool_use"]
  = [Emit (mkEvent model_role [Text "zero, "] true);
     Emit (mkEvent model_role [Text "one, "] true);
     Emit (mkEvent model_role [Text "two:"] true);
     Emit (mkEvent model_role
             [FunctionCall "test_tool_call_id" "test_function"
                [("test_arg", "test_value")]] false)].
Proof.
  split; [reflexivity|].
  apply (stream_text_then_tool_call parse_string_object). reflexivity.
Defined.

Lemma call_parts_ids {Args : Type} (l : list (CompleteToolCall (Args:=Args))) :
  omap (fun p => match p with
                 | FunctionCall id name _ => Some (id, name)
                 | _ => None
                 end) (call_part <$> l)
  = (fun c => (tool_id c, tool_name c)) <$> l.
Proof. induction l as [|c l IH]; csimpl; [done|]. by rewrite IH. Qed.

Lemma call_parts_no_text {Args : Type} (l : list (CompleteToolCall (Args:=Args))) :
  omap (fun p => match p with Text t => Some t | _ => None end) (call_part <$> l)
  = [].
Proof. induction l as [|c l IH]; csimpl; done. Qed.

(** C7.  A non-streaming response gives exactly one Event, whose parts are
    the Text part, when the response has a text, followed by one FunctionCall
    part for each tool call, in the order of the response, each with the id
    and the name of its tool call. *)
Theorem response_one_event {Args : Type} (r : Response (Args:=Args)) :
  exists e, assemble_response r = [e] /\
    parts e = match response_text r with Some t => [Text t] | None => [] end
              ++ (call_part <$> response_tool_calls r) /\
    omap (fun p => match p with
                   | FunctionCall id name _ => Some (id, name)
                   | _ => None
                   end) (parts e)
    = (fun c => (tool_id c, tool_name c)) <$> response_tool_calls r /\
    omap (fun p => match p with Text t => Some t | _ => None end) (parts e)
    = match response_text r with Some t => [t] | None => [] end.
Proof.
  eexists. split; [reflexivity|]. simpl. split; [done|].
  rewrite !omap_app, call_parts_ids, call_parts_no_text.
  destruct (response_text r); simpl; by rewrite ?app_nil_r.
Qed.

(** The example of the specification. *)
Lemma spec_response_example :
  assemble_response
    (mkResponse (Some "assistant") (Some "hi")
       [mkCompleteToolCall "t2" "g" ([] : list (string * string))])
  = [mkEvent model_role [Text "hi"; FunctionCall "t2" "g" []] false].
Proof. reflexivity. Qed.

Lemma assemble_from_role {Args : Type} (parse : string -> option Args)
    (chunks : list Chunk) : forall acc e,
  Emit e ∈ assemble_from parse acc chunks -> role e = model_role.
Proof.
  induction chunks as [|chunk chunks IH]; intros acc e; simpl.
  - by intros ?%elem_of_nil.
  - destruct (step parse acc chunk) as [acc' out] eqn:Hstep.
    intros [Hin|Hin]%elem_of_app; [|by eapply IH].
    destruct chunk as [t|index id name fragment|reason]; simpl in Hstep;
      inversion Hstep; subst acc' out.
    + apply list_elem_of_singleton in Hin. by inversion Hin.
    + by apply elem_of_nil in Hin.
    + apply list_elem_of_fmap in Hin as (entry & He & _).
      unfold finish_call in He. destruct (parse _); [|done]. by inversion He.
Qed.

(** C8.  The Event assembled from a response carries the normalized role
    of the response: the canonical output role model for an incoming role of
    model or assistant, and user for a response without role.  The Events
    assembled from chunks, which carry no role, have the role model. *)
Theorem response_role_normalized :
  (forall Args (r : Response (Args:=Args)),
     exists e, assemble_response r = [e] /\
       (response_role r = Some "model" \/ response_role r = Some "assistant" ->
        role e = "model") /\
       (response_role r = None -> role e = "user")) /\
  (forall Args (parse : string -> option Args) chunks e,
     Emit e ∈ assemble_stream parse chunks -> role e = "model").
Proof.
  split.
  - intros Args r. eexists. split; [reflexivity|]. simpl. split.
    + by intros [-> | ->].
    + by intros ->.
  - intros Args parse chunks e. apply assemble_from_role.
Qed.

(** The message of [test_message_to_generate_content_response_text], and a
    response without role. *)
Lemma response_role_examples :
  assemble_response
    (mkResponse (Some "assistant") (Some "Test response")
       ([] : list (CompleteToolCall (Args:=list (string * string)))))
  = [mkEvent "model" [Text "Test response"] false] /\
  assemble_response
    (mkResponse None (Some "Test response")
       ([] : list (CompleteToolCall (Args:=list (string * string)))))
  = [mkEvent "user" [Text "Test response"] false].
Proof. split; reflexivity. Qed.
End AssemblerFacts.

(** ** Sessions in evaluation format *)

Module EvalsFacts.
Import Evals.

Section convert_session_to_eval_format.
Context {Args Ev : Type} `{EqDecision Ev} (empty_args : Args).
Context (author : Ev -> option string) (content : Ev -> option (Content (Args:=Args))).
Local Abbreviation for_parts := (for_parts empty_args).
Local Abbreviation for_subsequent := (for_subsequent empty_args author content).
Local Abbreviation for_events := (for_events empty_args author content).
Local Abbreviation convert_session_to_eval_format :=
  (convert_session_to_eval_format empty_args author content).
Local Abbreviation tool_uses_of := (tool_uses_of empty_args content).
Local Abbreviation responses_of := (responses_of author content).
Local Abbreviation turn := (turn author).
Local Abbreviation turns := (turns empty_args author content).
Local Abbreviation nonempty_parts := (nonempty_parts content).
Local Abbreviation author_or_agent := (author_or_agent author).
Local Abbreviation query_of := (query_of author content).
Implicit Types (evs todo l pre xs ys t : list Ev) (event e u : Ev).
Implicit Types (acc : list (ToolUse (Args:=Args)) * list Response).

Lemma for_parts_spec a ps : forall acc,
  for_parts a ps acc
  = (acc.1 ++ omap (fun p => match function_call p with
                             | Some fc => Some (mkToolUse (or_empty (name fc))
                                                  (default empty_args (args fc)))
                             | None => None
                             end) ps,
     acc.2 ++ omap (fun p => match function_call p with
                             | Some _ => None
                             | None => if truthy (text p)
                                       then Some (mkResponse a (or_empty (text p)))
                                       else None
                             end) ps).
Proof.
  induction ps as [|p ps IH]; intros [ts rs]; simpl.
  - by rewrite !app_nil_r.
  - rewrite IH. destruct (function_call p) as [fc|]; simpl.
    + by rewrite <- app_assoc.
    + destruct (truthy (text p)); simpl; [|done]. by rewrite <- app_assoc.
Qed.

Local Arguments Evals.for_parts : simpl never.

Lemma for_subsequent_spec evs : forall acc,
  for_subsequent evs acc
  = (acc.1 ++ (turn evs ≫= tool_uses_of), acc.2 ++ (turn evs ≫= responses_of)).
Proof.
  induction evs as [|e evs IH]; intros [ts rs]; simpl.
  - by rewrite !app_nil_r.
  - destruct (decide (author_or_agent e = "user")); simpl.
    + by rewrite !app_nil_r.
    + unfold Evals.tool_uses_of at 1, Evals.responses_of at 1.
      destruct (nonempty_parts e) as [[first others]|] eqn:Hp; rewrite IH.
      * rewrite for_parts_spec. cbn [fst snd]. by rewrite <- !app_assoc.
      * done.
Qed.

Implicit Types (cases : list (EvalCase (Args:=Args))).

Lemma turn_cut xs u ys :
  author u = Some "user" -> turn (xs ++ u :: ys) = turn xs.
Proof.
  intros Hu. induction xs as [|x xs IH]; simpl.
  - destruct (decide _) as [|Hn]; [done|]. exfalso. apply Hn.
    unfold Evals.author_or_agent. by rewrite Hu.
  - destruct (decide _); [done|]. by rewrite IH.
Qed.

Lemma for_subsequent_cut xs u ys acc :
  author u = Some "user" ->
  for_subsequent (xs ++ u :: ys) acc = for_subsequent xs acc.
Proof. intros Hu. by rewrite !for_subsequent_spec, turn_cut. Qed.

Lemma index_in event evs : event ∈ evs -> is_Some (index event evs).
Proof.
  intros Hin. unfold index.
  destruct (list_find_elem_of (fun e => e = event) evs event Hin eq_refl)
    as [[i x] Hf]. rewrite Hf. simpl. eauto.
Qed.

Lemma index_app_l event l1 l2 :
  event ∈ l1 -> index event (l1 ++ l2) = index event l1 /\
                exists i, index event l1 = Some i /\ i < length l1.
Proof.
  intros Hin. unfold index.
  destruct (list_find_elem_of (fun e => e = event) l1 event Hin eq_refl)
    as [[i x] Hf].
  rewrite (list_find_app_l _ l1 l2 i x Hf), Hf. simpl. split; [done|].
  exists i. split; [done|]. apply list_find_Some in Hf as (Hi & _).
  by eapply lookup_lt_Some.
Qed.

Lemma index_app_r event l1 l2 :
  event ∉ l1 ->
  index event (l1 ++ l2) = (fun i => length l1 + i) <$> index event l2.
Proof.
  intros Hnin. unfold index. rewrite list_find_app_r.
  - destruct (list_find _ l2) as [[i x]|]; simpl; [|done]. f_equal. lia.
  - apply list_find_None, Forall_forall. intros x Hx ->. done.
Qed.

Lemma for_events_app evs t1 t2 : forall cases,
  for_events evs (t1 ++ t2) cases
  = for_events evs t1 cases ≫= for_events evs t2.
Proof.
  induction t1 as [|e t1 IH]; intros cases; simpl; [done|].
  destruct (decide _); [|done].
  destruct (nonempty_parts e) as [[first others]|]; [|done].
  destruct (index e evs); [|done]. apply IH.
Qed.

Lemma for_events_acc evs todo : forall cases,
  for_events evs todo cases = (cases ++.) <$> for_events evs todo [].
Proof.
  induction todo as [|e todo IH]; intros cases; simpl.
  - by rewrite app_nil_r.
  - destruct (decide _); [|done].
    destruct (nonempty_parts e) as [[first others]|]; [|done].
    destruct (index e evs) as [i|]; [|done].
    rewrite (IH (cases ++ _)), (IH [_]).
    destruct (for_events evs todo []) as [cs|]; simpl; [|done].
    by rewrite <- app_assoc.
Qed.

(** The events after the first one equal to [event] are not looked at once
    an event of the user is met: what follows it in the list is of no
    account for the events before it. *)
Lemma for_events_cut l1 u l2 todo : forall cases,
  author u = Some "user" -> (forall e, e ∈ todo -> e ∈ l1) ->
  for_events (l1 ++ u :: l2) todo cases = for_events l1 todo cases.
Proof.
  intros cases Hu. revert cases.
  induction todo as [|e todo IH]; intros cases Hin; simpl; [done|].
  assert (Hin' : forall e', e' ∈ todo -> e' ∈ l1)
    by (intros; apply Hin; by right).
  destruct (decide _); [|by apply IH].
  destruct (nonempty_parts e) as [[first others]|]; [|by apply IH].
  destruct (index_app_l e l1 (u :: l2) (Hin e ltac:(left)))
    as (-> & i & -> & Hi).
  rewrite drop_app_le by lia. rewrite for_subsequent_cut by done. by apply IH.
Qed.

(** The events before do not count for events that do not occur among
    them. *)
Lemma for_events_shift pre evs todo : forall cases,
  (forall e, e ∈ todo -> author e = Some "user" -> e ∉ pre) ->
  for_events (pre ++ evs) todo cases = for_events evs todo cases.
Proof.
  induction todo as [|e todo IH]; intros cases Hnin; simpl; [done|].
  assert (Hnin' : forall e', e' ∈ todo -> author e' = Some "user" -> e' ∉ pre)
    by (intros; apply Hnin; [by right|done]).
  destruct (decide _) as [Hu|]; [|by apply IH].
  destruct (nonempty_parts e) as [[first others]|]; [|by apply IH].
  rewrite index_app_r by (apply Hnin; [left|done]).
  destruct (index e evs) as [i|]; simpl; [|done].
  replace (S (length pre + i)) with (length pre + S i) by lia.
  rewrite drop_app_add. by apply IH.
Qed.

Lemma for_events_no_user evs todo cases :
  (forall e, e ∈ todo -> author e <> Some "user") ->
  for_events evs todo cases = Some cases.
Proof.
  revert cases. induction todo as [|e todo IH]; intros cases Hn; simpl; [done|].
  rewrite decide_False by (apply Hn; left). apply IH.
  intros e' He'. apply Hn. by right.
Qed.

Lemma for_events_total evs todo : forall cases,
  (forall e, e ∈ todo -> e ∈ evs) -> is_Some (for_events evs todo cases).
Proof.
  induction todo as [|e todo IH]; intros cases Hin; simpl; [eauto|].
  assert (Hin' : forall e', e' ∈ todo -> e' ∈ evs)
    by (intros; apply Hin; by right).
  destruct (decide _); [|by apply IH].
  destruct (nonempty_parts e) as [[first others]|]; [|by apply IH].
  destruct (index_in e evs (Hin e ltac:(left))) as [i ->]. by apply IH.
Qed.

Lemma convert_unfold evs :
  convert_session_to_eval_format (Some (mkSession evs)) = for_events evs evs [].
Proof. reflexivity. Qed.

(** X1.  [convert_session_to_eval_format] returns for every session: the
    call [events.index(event)] in its loop never raises [ValueError], since
    the event it looks for comes from the list it searches.  For no session
    at all the result is the empty list. *)
Theorem convert_never_raises session :
  is_Some (convert_session_to_eval_format session) /\
  convert_session_to_eval_format None = Some [].
Proof.
  split; [|done]. unfold Evals.convert_session_to_eval_format.
  by apply for_events_total.
Qed.

Lemma for_events_queries evs todo : forall cases result,
  for_events evs todo cases = Some result ->
  query <$> result = (query <$> cases) ++ omap query_of todo.
Proof.
  induction todo as [|e todo IH]; intros cases result Hr; simpl in *.
  - inversion Hr; subst. by rewrite app_nil_r.
  - unfold Evals.query_of at 1.
    destruct (decide _); [|by apply IH].
    destruct (nonempty_parts e) as [[first others]|]; simpl; [|by apply IH].
    destruct (index e evs) as [i|]; [|done].
    rewrite (IH _ _ Hr), fmap_app. simpl. by rewrite <- app_assoc.
Qed.

(** X2.  The result has one case for each event of the session whose author
    is the user and whose content has at least one part, in the order of the
    events, and the query of the case is the text of the first part of that
    event (the empty string when the part has no text).  Events of the user
    without content or without parts are passed over. *)
Theorem convert_queries session result :
  convert_session_to_eval_format session = Some result ->
  query <$> result
  = omap query_of (match session with Some s => events s | None => [] end).
Proof. intros Hr. by rewrite (for_events_queries _ _ _ _ Hr). Qed.

Lemma index_head e l : index e (e :: l) = Some 0.
Proof. unfold index. simpl. by rewrite decide_True. Qed.

Lemma for_events_turns todo : forall done cases,
  NoDup (filter (fun e => author e = Some "user") (done ++ todo)) ->
  for_events (done ++ todo) todo cases = Some (cases ++ turns todo).
Proof.
  induction todo as [|e todo IH]; intros done cases Hnd; simpl.
  - by rewrite app_nil_r.
  - assert (Hnd' : NoDup (filter (fun e => author e = Some "user")
                            ((done ++ [e]) ++ todo)))
      by (by rewrite <- app_assoc).
    specialize (IH (done ++ [e])). rewrite <- app_assoc in IH. simpl in IH.
    destruct (decide (author e = Some "user")) as [Hu|]; [|by apply IH].
    destruct (nonempty_parts e) as [[first others]|]; [|by apply IH].
    assert (Hnin : e ∉ done).
    { rewrite filter_app, filter_cons_True in Hnd by done.
      apply NoDup_app in Hnd as (_ & Hd & _). intros Hin.
      apply (Hd e); [|left]. by apply list_elem_of_filter. }
    rewrite index_app_r, index_head by done. simpl.
    replace (S (length done + 0)) with (length done + 1) by lia.
    rewrite drop_app_add. simpl. rewrite drop_0.
    rewrite IH by done. rewrite for_subsequent_spec. simpl.
    by rewrite <- app_assoc.
Qed.

(** X3.  When no two events of the user in the session are equal, the loops
    of [convert_session_to_eval_format] compute [turns]: each case is made of
    the events that follow its query up to the next event whose author is the
    user, the tool uses being the function calls of their parts and the
    responses the non-empty texts of the parts without function call, the
    last response being the reference. *)
Theorem convert_turns evs :
  NoDup (filter (fun e => author e = Some "user") evs) ->
  convert_session_to_eval_format (Some (mkSession evs)) = Some (turns evs).
Proof.
  intros Hnd. rewrite convert_unfold.
  apply (for_events_turns evs [] []). done.
Qed.

(** X4.  Events before the first event of the user leave no trace in the
    result: dropping them from the session does not change it. *)
Theorem convert_skips_leading_events pre evs :
  (forall e, e ∈ pre -> author e <> Some "user") ->
  convert_session_to_eval_format (Some (mkSession (pre ++ evs)))
  = convert_session_to_eval_format (Some (mkSession evs)).
Proof.
  intros Hpre. rewrite !convert_unfold.
  rewrite for_events_app, for_events_no_user by done. simpl.
  apply for_events_shift. intros e _ Hu Hin. by apply (Hpre e).
Qed.

(** X5.  A session cut in front of an event of the user is converted piece
    by piece: when no event of the user in the second piece is equal to an
    event of the first piece, the result for the whole session is the result
    for the first piece followed by the result for the second. *)
Theorem convert_app l1 u l2 :
  author u = Some "user" ->
  (forall e, e ∈ u :: l2 -> author e = Some "user" -> e ∉ l1) ->
  exists c1 c2,
    convert_session_to_eval_format (Some (mkSession l1)) = Some c1 /\
    convert_session_to_eval_format (Some (mkSession (u :: l2))) = Some c2 /\
    convert_session_to_eval_format (Some (mkSession (l1 ++ u :: l2)))
    = Some (c1 ++ c2).
Proof.
  intros Hu Hfresh. rewrite !convert_unfold.
  destruct (for_events_total l1 l1 []) as [c1 H1]; [done|].
  destruct (for_events_total (u :: l2) (u :: l2) []) as [c2 H2]; [done|].
  exists c1, c2. split; [done|]. split; [done|].
  rewrite for_events_app, (for_events_cut l1 u l2 l1 []), H1 by done.
  change (for_events (l1 ++ u :: l2) (u :: l2) c1 = Some (c1 ++ c2)).
  rewrite for_events_shift by done. by rewrite for_events_acc, H2.
Qed.

Lemma author_or_agent_nonempty e : author_or_agent e <> EmptyString.
Proof. unfold Evals.author_or_agent. by destruct (author e) as [[|c s]|]. Qed.

Lemma turn_not_user evs e : e ∈ turn evs -> author_or_agent e <> "user".
Proof.
  induction evs as [|x evs IH]; simpl; [by intros ?%elem_of_nil|].
  destruct (decide _); [by intros ?%elem_of_nil|].
  intros [->|Hin]%elem_of_cons; auto.
Qed.

Lemma responses_of_sound e (r : Response) :
  r ∈ responses_of e ->
  response_text r <> EmptyString /\ response_author r = author_or_agent e.
Proof.
  unfold Evals.responses_of.
  destruct (nonempty_parts e) as [[first others]|]; [|by intros ?%elem_of_nil].
  intros (p & _ & Hp)%list_elem_of_omap.
  destruct (function_call p); [done|].
  destruct (text p) as [[|c s]|]; simpl in Hp; try done.
  inversion Hp; subst. done.
Qed.

Lemma for_subsequent_sound evs (r : Response) :
  r ∈ (for_subsequent evs ([], [])).2 ->
  response_text r <> EmptyString /\ response_author r <> "user" /\
  response_author r <> EmptyString.
Proof.
  rewrite for_subsequent_spec. simpl.
  intros (e & Hr & He)%list_elem_of_bind.
  apply responses_of_sound in Hr as [Ht ->]. split; [done|].
  split; [by eapply turn_not_user|apply author_or_agent_nonempty].
Qed.

Lemma close_turn_sound q (ts : list (ToolUse (Args:=Args))) (rs : list Response)
    (P : Response -> Prop) :
  (forall r, r ∈ rs -> P r /\ response_text r <> EmptyString) ->
  let c := close_turn q (ts, rs) in
  (forall r, r ∈ expected_intermediate_agent_responses c -> P r) /\
  (reference c = EmptyString -> rs = []) /\
  (rs <> [] ->
   response_text <$> rs
   = (response_text <$> expected_intermediate_agent_responses c) ++ [reference c]).
Proof.
  intros Hrs c. subst c. unfold close_turn. simpl.
  destruct rs as [|r0 rs0 _] using rev_ind.
  - simpl. split; [by intros ? ?%elem_of_nil|]. done.
  - rewrite last_snoc, List.removelast_last. split; [|split].
    + intros r Hr. apply Hrs. apply elem_of_app. by left.
    + intros Href. exfalso.
      destruct (Hrs r0) as [_ Hne]; [|done]. apply elem_of_app. right. left.
    + intros _. by rewrite fmap_app.
Qed.

Lemma for_events_sound (P : EvalCase (Args:=Args) -> Prop) evs todo :
  (forall q i, P (close_turn q (for_subsequent (drop (S i) evs) ([], [])))) ->
  forall cases result,
  for_events evs todo cases = Some result ->
  (forall c, c ∈ cases -> P c) -> forall c, c ∈ result -> P c.
Proof.
  intros HP. induction todo as [|e todo IH]; intros cases result Hr Hc; simpl in Hr.
  - by inversion Hr; subst.
  - destruct (decide _); [|by eapply IH].
    destruct (nonempty_parts e) as [[first others]|]; [|by eapply IH].
    destruct (index e evs) as [i|]; [|done].
    eapply IH; [done|]. intros c [Hin|Hin%list_elem_of_singleton]%elem_of_app.
    + by apply Hc.
    + subst c. apply HP.
Qed.

(** X6.  In every case of the result, each intermediate response has a
    non-empty text and an author that is neither the user nor empty (an event
    without author counts as the agent); and a case whose reference is
    empty has no intermediate responses. *)
Theorem convert_responses session result c :
  convert_session_to_eval_format session = Some result -> c ∈ result ->
  (forall r, r ∈ expected_intermediate_agent_responses c ->
     response_text r <> EmptyString /\ response_author r <> "user" /\
     response_author r <> EmptyString) /\
  (reference c = EmptyString -> expected_intermediate_agent_responses c = []).
Proof.
  intros Hr Hc. unfold Evals.convert_session_to_eval_format in Hr.
  set (evs := match session with Some s => events s | None => [] end) in Hr.
  revert c Hc. eapply for_events_sound; [|exact Hr|by intros ? ?%elem_of_nil].
  intros q i.
  destruct (for_subsequent (drop (S i) evs) ([], [])) as [ts rs] eqn:Hsub.
  destruct (close_turn_sound q ts rs
              (fun r => response_text r <> EmptyString /\
                        response_author r <> "user" /\
                        response_author r <> EmptyString)) as (H1 & H2 & _).
  { intros r Hin. assert (Hr' := for_subsequent_sound (drop (S i) evs) r).
    rewrite Hsub in Hr'. specialize (Hr' Hin). tauto. }
  split; [exact H1|]. intros Href. by rewrite (H2 Href).
Qed.

Lemma for_events_mem evs todo e first others i : forall cases result,
  for_events evs todo cases = Some result ->
  e ∈ todo -> author e = Some "user" ->
  nonempty_parts e = Some (first, others) -> index e evs = Some i ->
  close_turn (or_empty (text first))
             (for_subsequent (drop (S i) evs) ([], [])) ∈ result.
Proof.
  induction todo as [|x todo IH]; intros cases result Hr Hin Hu Hp Hi;
    [by apply elem_of_nil in Hin|].
  simpl in Hr. apply elem_of_cons in Hin as [<-|Hin].
  - rewrite decide_True, Hp, Hi in Hr by done.
    rewrite for_events_acc in Hr.
    destruct (for_events evs todo []) as [r0|]; simpl in Hr; [|done].
    inversion Hr; subst. apply elem_of_app. left. apply elem_of_app. right. left.
  - destruct (decide _); [|by eapply IH].
    destruct (nonempty_parts x) as [[f o]|]; [|by eapply IH].
    destruct (index x evs); [|done]. by eapply IH.
Qed.

(** X7.  [events.index(event)] finds the first event equal to [event]: when
    an event of the user that is already in the session is appended to it
    once more, the case added for the new occurrence is a case already in the
    result, made of the events after the first occurrence, and the cases
    before it are unchanged. *)
Theorem convert_repeated_query evs e :
  e ∈ evs -> author e = Some "user" -> is_Some (nonempty_parts e) ->
  exists cases c,
    convert_session_to_eval_format (Some (mkSession evs)) = Some cases /\ c ∈ cases /\
    convert_session_to_eval_format (Some (mkSession (evs ++ [e]))) = Some (cases ++ [c]).
Proof.
  intros Hin Hu [[first others] Hp]. rewrite !convert_unfold.
  destruct (for_events_total evs evs []) as [cases Hc]; [done|].
  destruct (index_app_l e evs [e] Hin) as (Hi & i & Hi' & Hlt).
  exists cases, (close_turn (or_empty (text first))
                   (for_subsequent (drop (S i) evs) ([], []))).
  split; [done|]. split; [by eapply for_events_mem|].
  rewrite for_events_app, (for_events_cut evs e [] evs []), Hc by done.
  change (for_events (evs ++ [e]) [e] cases = Some (cases ++ [close_turn
            (or_empty (text first)) (for_subsequent (drop (S i) evs) ([], []))])).
  simpl. rewrite decide_True, Hp, Hi, Hi' by done.
  rewrite drop_app_le by lia. by rewrite for_subsequent_cut.
Qed.
End convert_session_to_eval_format.

(** *** The theorems at a session of two turns *)

Lemma convert_queries_witness :
  let session := Some (mkSession sample_events) in
  let result := default [] (sample_convert sample_events) in
  convert_session_to_eval_format () sample_author sample_content session
  = Some result /\
  query <$> result = ["hello"; "bye"].
Proof.
  intros session result.
  assert (Hr : convert_session_to_eval_format () sample_author sample_content
                 session = Some result) by (vm_compute; reflexivity).
  split; [exact Hr|].
  exact (convert_queries () sample_author sample_content session result Hr).
Defined.

Lemma convert_turns_witness :
  NoDup (filter (fun e => sample_author e = Some "user") sample_events) /\
  sample_convert sample_events
  = Some (turns () sample_author sample_content sample_events).
Proof.
  assert (Hnd : NoDup (filter (fun e => sample_author e = Some "user")
                         sample_events))
    by (apply (bool_decide_unpack _); vm_compute; exact I).
  split; [exact Hnd|].
  exact (convert_turns () sample_author sample_content sample_events Hnd).
Defined.

Lemma convert_skips_leading_events_witness :
  (forall e, e ∈ sample_greeting -> sample_author e <> Some "user") /\
  sample_convert (sample_greeting ++ sample_first_turn)
  = sample_convert sample_first_turn.
Proof.
  assert (Hpre : forall e, e ∈ sample_greeting -> sample_author e <> Some "user").
  { apply Forall_forall. apply (bool_decide_unpack _). vm_compute. exact I. }
  split; [exact Hpre|].
  exact (convert_skips_leading_events () sample_author sample_content
           sample_greeting sample_first_turn Hpre).
Defined.

Lemma convert_app_witness :
  sample_author sample_second_query = Some "user" /\
  (forall e, e ∈ sample_second_query :: sample_second_answer ->
     sample_author e = Some "user" -> e ∉ sample_first_turn) /\
  exists c1 c2,
    sample_convert sample_first_turn = Some c1 /\
    sample_convert (sample_second_query :: sample_second_answer) = Some c2 /\
    sample_convert
      (sample_first_turn ++ sample_second_query :: sample_second_answer)
    = Some (c1 ++ c2).
Proof.
  assert (Hfresh : forall e, e ∈ sample_second_query :: sample_second_answer ->
            sample_author e = Some "user" -> e ∉ sample_first_turn).
  { apply (proj1 (Forall_forall
             (fun e => sample_author e = Some "user" -> e ∉ sample_first_turn) _)).
    apply (bool_decide_unpack _). vm_compute. exact I. }
  split; [reflexivity|]. split; [exact Hfresh|].
  exact (convert_app () sample_author sample_content sample_first_turn
           sample_second_query sample_second_answer eq_refl Hfresh).
Defined.

Lemma convert_responses_witness :
  let c := mkEvalCase "hello" [] [mkResponse "agent" "thinking"] "hi there" in
  sample_convert sample_first_turn = Some [c] /\ c ∈ [c] /\
  (forall r, r ∈ expected_intermediate_agent_responses c ->
     response_text r <> EmptyString /\ response_author r <> "user" /\
     response_author r <> EmptyString) /\
  (reference c = EmptyString -> expected_intermediate_agent_responses c = []).
Proof.
  intros c.
  assert (Hr : sample_convert sample_first_turn = Some [c])
    by (vm_compute; reflexivity).
  assert (Hc : c ∈ [c]) by left.
  split; [exact Hr|]. split; [exact Hc|].
  exact (convert_responses () sample_author sample_content
           (Some (mkSession sample_first_turn)) [c] c Hr Hc).
Defined.

Lemma convert_repeated_query_witness :
  let e := mkSampleEvent 1 (Some "user") (Some "hello") in
  e ∈ sample_first_turn /\ sample_author e = Some "user" /\
  is_Some (nonempty_parts sample_content e) /\
  exists cases c,
    sample_convert sample_first_turn = Some cases /\ c ∈ cases /\
    sample_convert (sample_first_turn ++ [e]) = Some (cases ++ [c]).
Proof.
  intros e.
  assert (Hin : e ∈ sample_first_turn) by left.
  assert (Hp : is_Some (nonempty_parts sample_content e))
    by (vm_compute; eauto).
  split; [exact Hin|]. split; [reflexivity|]. split; [exact Hp|].
  exact (convert_repeated_query () sample_author sample_content
           sample_first_turn e Hin eq_refl Hp).
Defined.

End EvalsFacts.
